(** * Ruby-VPI relay: the baton between the Verilog simulator and Ruby,
      and the two bootstraps that start the Ruby interpreter.

    Sources embedded here: [ext/relay.c] and [ext/main.c].

    - [Baton]   : the two pthread mutexes of relay.c and the handoffs
                  [relay_ruby] / [relay_verilog], run by two threads under
                  an interleaving semantics.
    - [Relay]   : [relay_ruby_run] and [ruby_run_handshake] over a heap
                  with a fallible allocator and a log of the calls made to
                  the collaborators (VPI, the Ruby C API, libc).
    - [Main]    : [main_init] of main.c over a process environment. *)

From stdpp Require Import base decidable option numbers list strings gmap.

Local Open Scope list_scope.

(* ===================================================================== *)
(** ** The baton (relay.c, lines 31-50; main.c, lines 44-47)             *)
(* ===================================================================== *)

Module Baton.

(** A default pthread mutex, used here as a binary gate: any thread may
    release it, whoever finds it released may take it. *)
Inductive mutex := Locked | Unlocked.

(** [relay__rubyLock] and [relay__verilogLock]. *)
Inductive gate := RubyLock | VerilogLock.

(** The pthread calls the baton makes. *)
Inductive op :=
| MutexInit (g : gate)
| MutexLock (g : gate)
| MutexUnlock (g : gate).

#[global] Instance mutex_eq_dec : EqDecision mutex.
Proof. solve_decision. Defined.
#[global] Instance gate_eq_dec : EqDecision gate.
Proof. solve_decision. Defined.
#[global] Instance op_eq_dec : EqDecision op.
Proof. solve_decision. Defined.

(** Straight-line C procedures: the pthread calls they make, in program
    order, and the value they return. *)
Definition proc (A : Type) : Type := (list op * A)%type.

Definition ret {A} (a : A) : proc A := ([], a).
Definition bind {A B} (m : proc A) (k : A -> proc B) : proc B :=
  (m.1 ++ (k m.2).1, (k m.2).2).
Definition ops {A} (m : proc A) : list op := m.1.
Definition result {A} (m : proc A) : A := m.2.

Notation "m >>> k" := (bind m (fun _ => k))
  (at level 100, right associativity).

Definition pthread_mutex_init (g : gate) : proc unit := ([MutexInit g], tt).
Definition pthread_mutex_lock (g : gate) : proc unit := ([MutexLock g], tt).
Definition pthread_mutex_unlock (g : gate) : proc unit := ([MutexUnlock g], tt).

Definition relay_init : proc unit :=
  pthread_mutex_init RubyLock >>>
  pthread_mutex_lock RubyLock >>>
  pthread_mutex_init VerilogLock >>>
  pthread_mutex_lock VerilogLock.

Definition relay_ruby : proc unit :=
  pthread_mutex_unlock RubyLock >>>
  pthread_mutex_lock VerilogLock.

Definition relay_verilog : proc unit :=
  pthread_mutex_unlock VerilogLock >>>
  pthread_mutex_lock RubyLock.

(** main.c: the callable bound into Ruby as [Vpi::relay_verilog]. *)
Definition main_relay_verilog {VALUE : Type} (arSelf : VALUE) : proc VALUE :=
  relay_verilog >>>
  ret arSelf.

(** *** Two threads running handoffs *)

(** The simulator's thread and the thread made by [pthread_create]. *)
Inductive party := Verilog | Ruby.

Inductive handoff := RelayRuby | RelayVerilog.

Definition body (h : handoff) : list op :=
  match h with
  | RelayRuby => ops relay_ruby
  | RelayVerilog => ops relay_verilog
  end.

(** The handoff each side is meant to call. *)
Definition own (p : party) : handoff :=
  match p with
  | Verilog => RelayRuby
  | Ruby => RelayVerilog
  end.

(** The gates and, per thread, the pthread calls still to be made before
    the procedure it is in returns; [[]] is a thread running its own code,
    outside any baton procedure. *)
Record sys := Sys {
  relay__rubyLock : mutex;
  relay__verilogLock : mutex;
  pcVerilog : list op;
  pcRuby : list op
}.

Definition gate_of (g : gate) (s : sys) : mutex :=
  match g with
  | RubyLock => relay__rubyLock s
  | VerilogLock => relay__verilogLock s
  end.

Definition set_gate (g : gate) (m : mutex) (s : sys) : sys :=
  match g with
  | RubyLock => Sys m (relay__verilogLock s) (pcVerilog s) (pcRuby s)
  | VerilogLock => Sys (relay__rubyLock s) m (pcVerilog s) (pcRuby s)
  end.

Definition pc (p : party) (s : sys) : list op :=
  match p with
  | Verilog => pcVerilog s
  | Ruby => pcRuby s
  end.

Definition set_pc (p : party) (k : list op) (s : sys) : sys :=
  match p with
  | Verilog => Sys (relay__rubyLock s) (relay__verilogLock s) k (pcRuby s)
  | Ruby => Sys (relay__rubyLock s) (relay__verilogLock s) (pcVerilog s) k
  end.

(** One pthread call.  [pthread_mutex_lock] on a locked gate does not
    return: the caller stays where it is ([None]).  Neither mutex records
    an owner: [relay_ruby] releases the gate that [relay_init] or the
    other thread locked. *)
Definition perform (o : op) (s : sys) : option sys :=
  match o with
  | MutexInit g => Some (set_gate g Unlocked s)
  | MutexUnlock g => Some (set_gate g Unlocked s)
  | MutexLock g =>
      match gate_of g s with
      | Unlocked => Some (set_gate g Locked s)
      | Locked => None
      end
  end.

(** What the scheduler can let happen next: a running thread enters a
    handoff, or a thread inside a procedure makes its next pthread call. *)
Inductive event :=
| Invoke (p : party) (h : handoff)
| Run (p : party).

Definition step (s : sys) (e : event) : option sys :=
  match e with
  | Invoke p h =>
      match pc p s with
      | [] => Some (set_pc p (body h) s)
      | _ :: _ => None
      end
  | Run p =>
      match pc p s with
      | [] => None
      | o :: k =>
          match perform o s with
          | Some s' => Some (set_pc p k s')
          | None => None
          end
      end
  end.

Fixpoint exec (s : sys) (tr : list event) : option sys :=
  match tr with
  | [] => Some s
  | e :: tr' =>
      match step s e with
      | Some s' => exec s' tr'
      | None => None
      end
  end.

(** A thread is in an active region when it is outside every baton
    procedure. *)
Definition active (p : party) (s : sys) : Prop := pc p s = [].

(** A thread is blocked when its next call is a lock of a locked gate. *)
Definition unblocked (p : party) (s : sys) : bool :=
  match pc p s with
  | MutexLock g :: _ =>
      match gate_of g s with Unlocked => true | Locked => false end
  | _ => true
  end.

(** Each side calls only its own handoff. *)
Definition own_side (e : event) : Prop :=
  match e with
  | Invoke p h => h = own p
  | Run _ => True
  end.

(** Both gates locked: what [relay_init] leaves behind. *)
Definition gates_closed (s : sys) : Prop :=
  relay__rubyLock s = Locked /\ relay__verilogLock s = Locked.

(** The simulator thread has run [relay_init] and [relay_ruby_run]; the
    thread made by [pthread_create] has started [ruby_run_handshake].
    Neither is inside a baton procedure. *)
Definition launched : sys := Sys Locked Locked [] [].

(** After the launch the Ruby thread calls [relay_verilog] and the
    simulator calls [relay_ruby]; both calls go through to their end. *)
Definition first_handoffs : list event :=
  [Invoke Ruby RelayVerilog; Run Ruby;
   Invoke Verilog RelayRuby; Run Verilog; Run Verilog;
   Run Ruby].

(** Both gates locked, the simulator running, the Ruby thread waiting in
    [pthread_mutex_lock (&relay__rubyLock)]. *)
Definition parked : sys := Sys Locked Locked [] [MutexLock RubyLock].

(** Exchanging the roles of the two gates. *)
Definition dual_gate (g : gate) : gate :=
  match g with
  | RubyLock => VerilogLock
  | VerilogLock => RubyLock
  end.

Definition dual_op (o : op) : op :=
  match o with
  | MutexInit g => MutexInit (dual_gate g)
  | MutexLock g => MutexLock (dual_gate g)
  | MutexUnlock g => MutexUnlock (dual_gate g)
  end.

Definition dual_party (p : party) : party :=
  match p with
  | Verilog => Ruby
  | Ruby => Verilog
  end.

Definition dual_handoff (h : handoff) : handoff :=
  match h with
  | RelayRuby => RelayVerilog
  | RelayVerilog => RelayRuby
  end.

Definition dual_event (e : event) : event :=
  match e with
  | Invoke p h => Invoke (dual_party p) (dual_handoff h)
  | Run p => Run (dual_party p)
  end.

Definition dual_sys (s : sys) : sys :=
  Sys (relay__verilogLock s) (relay__rubyLock s)
      (map dual_op (pcRuby s)) (map dual_op (pcVerilog s)).

(** The turns in play: a thread that is not waiting at a lock holds one,
    and so does every released gate (it lets one waiter through). *)
Definition holds_turn (k : list op) : nat :=
  match k with
  | MutexLock _ :: _ => 0
  | _ => 1
  end.

Definition released (m : mutex) : nat :=
  match m with
  | Unlocked => 1
  | Locked => 0
  end.

Definition turns (s : sys) : nat :=
  holds_turn (pcVerilog s) + holds_turn (pcRuby s)
  + released (relay__rubyLock s) + released (relay__verilogLock s).

(** Where a thread that only calls its own handoff can be. *)
Definition on_track (p : party) (k : list op) : Prop :=
  k = [] \/ k = body (own p) \/ k = drop 1 (body (own p)).

Definition alternating (s : sys) : Prop :=
  on_track Verilog (pcVerilog s) /\ on_track Ruby (pcRuby s) /\ turns s <= 1.

(** The calls that release the simulator's gate. *)
Definition keeps_verilogLock (o : op) : Prop :=
  o <> MutexUnlock VerilogLock /\ o <> MutexInit VerilogLock.

Definition no_relay_verilog (e : event) : Prop :=
  match e with
  | Invoke _ h => h = RelayRuby
  | Run _ => True
  end.

(** One thread runs its own code, the other waits at its own gate. *)
Definition one_waiting (s : sys) : Prop :=
  (pcVerilog s = [] /\ pcRuby s = [MutexLock RubyLock]) \/
  (pcVerilog s = [MutexLock VerilogLock] /\ pcRuby s = []).

(** What it is for handoff [h] to release gate [rel] first and then hold
    its caller at gate [wait]: entered by a running thread [p], its first
    pthread call always goes through and leaves [rel] released, [wait] and
    the other thread untouched and [p] in front of the lock of [wait];
    from there [p] cannot move while [wait] is locked, and once [wait] is
    released [p] takes it and the handoff returns. *)
Definition releases_then_waits (h : handoff) (rel wait : gate) : Prop :=
  forall p s, active p s ->
    exists s1 s2,
      step s (Invoke p h) = Some s1 /\
      step s1 (Run p) = Some s2 /\
      gate_of rel s2 = Unlocked /\
      gate_of wait s2 = gate_of wait s /\
      pc (dual_party p) s2 = pc (dual_party p) s /\
      pc p s2 = [MutexLock wait] /\
      forall s3, pc p s3 = [MutexLock wait] ->
        match gate_of wait s3 with
        | Locked =>
            step s3 (Run p) = None /\ unblocked p s3 = false /\
            forall h', step s3 (Invoke p h') = None
        | Unlocked =>
            exists s4, step s3 (Run p) = Some s4 /\ active p s4 /\
                       gate_of wait s4 = Locked /\
                       gate_of rel s4 = gate_of rel s3
        end.

(** The simulator thread calling [relay_ruby (); relay_ruby ();]. *)
Definition relay_ruby_twice : proc unit := relay_ruby >>> relay_ruby.

(** Where the simulator thread can be inside [relay_ruby_twice] while
    nobody releases [relay__verilogLock]: once the first call has taken
    the gate, the gate stays locked. *)
Definition stuck_in_twice (s : sys) : Prop :=
  Forall keeps_verilogLock (pcRuby s) /\
  (pcVerilog s = ops relay_ruby_twice \/
   pcVerilog s = drop 1 (ops relay_ruby_twice) \/
   (pcVerilog s = drop 2 (ops relay_ruby_twice) /\ relay__verilogLock s = Locked) \/
   (pcVerilog s = drop 3 (ops relay_ruby_twice) /\ relay__verilogLock s = Locked)).

(** *** A handoff each way *)

(** From [parked]: the simulator calls [relay_ruby], which releases
    [relay__rubyLock]; the Ruby thread takes it and runs; it calls
    [relay_verilog], which releases [relay__verilogLock]; the simulator
    takes it and [relay_ruby] returns. *)
Definition round : list event :=
  [Invoke Verilog RelayRuby; Run Verilog; Run Ruby;
   Invoke Ruby RelayVerilog; Run Ruby; Run Verilog].

(** Where the baton is after the first [k] events of a round. *)
Definition phase (k : nat) : sys :=
  default parked (exec parked (take k round)).

(** Nothing can happen in [s]. *)
Definition stuck (s : sys) : Prop := forall e, step s e = None.

End Baton.

(* ===================================================================== *)
(** ** Launching Ruby (relay.c, lines 52-134; main.c, lines 17-42)       *)
(* ===================================================================== *)

Module Relay.

Local Open Scope Z_scope.

(** Pointers; [NULL] is 0. *)
Definition NULL : N := 0%N.

(** [EXIT_FAILURE] of stdlib.h. *)
Definition EXIT_FAILURE : Z := 1.

(** [unsigned int] arithmetic. *)
Definition uint (z : Z) : Z := z mod 2 ^ 32.

(** What lives in the heap.  A field or slot that was never written is
    [None].  A string is the bytes before its terminating NUL. *)
Inductive block :=
| Str (s : string)
| Args (slots : list (option N))
| Options (mArgs : option N) (mCount : option Z).

(** What the simulator has at the call site of the system task:
    [vpi_handle (vpiSysTfCall, NULL)] may give no handle,
    [vpi_iterate (vpiArgument, vCall)] may give no iterator, and otherwise
    [vpi_scan] yields the arguments, each with its value as a string. *)
Inductive call_site :=
| NoCall
| NoArguments
| Arguments (args : list string).

Definition source (c : call_site) : list string :=
  match c with
  | Arguments args => args
  | _ => []
  end.

(** The C functions [rb_define_module_function] is given in main.c. *)
Inductive cfunc := Fmain_relay_verilog | Fmain_relay_ruby_reason.

(** Calls made to the collaborators, as they are logged. *)
Inductive call :=
| Cvpi_handle (found : bool)
| Cvpi_iterate (found : bool)
| Cvpi_scan (vArg : option string)
| Cvpi_get_value (vArg : string)
| Cmalloc (r : N)
| Crealloc (old r : N)
| Cstrdup (s : string) (r : N)
| Cfree (q : N)
| Cpthread_create (arg : N)
| Ccommon_printf (msg : string)
| Cexit (status : Z)
| Cassert_fail
| Cruby_init
| Cruby_init_loadpath
| Cswig_init
| Cruby_options (argc : Z) (argv : N) (received : list (option string))
| Cruby_run
| Cruby_finalize
| CInit_vpi
| Crb_define_module_function (name : string) (f : cfunc) (arity : Z)
| Cgetenv (name : string)
| Cruby_script (name : string)
| Crb_load_file (name : string).

(** The process: its heap and allocator, the simulator's call site, the
    environment, the thread handle and the log of calls.  The allocator
    hands out addresses from [brk] upwards; [oom n] says that the [n]-th
    request for storage fails, [in_place n] that the [n]-th request, if a
    [realloc], grows the block where it is. *)
Record world := World {
  heap : gmap N block;
  brk : N;
  oom : nat -> bool;
  in_place : nat -> bool;
  requests : nat;
  site : call_site;
  environ : gmap string string;
  relay__rubyThread : option N;
  log : list call
}.

Definition with_heap (h : gmap N block) (w : world) : world :=
  World h (brk w) (oom w) (in_place w) (requests w) (site w) (environ w)
        (relay__rubyThread w) (log w).

Definition with_brk (b : N) (w : world) : world :=
  World (heap w) b (oom w) (in_place w) (requests w) (site w) (environ w)
        (relay__rubyThread w) (log w).

Definition with_requests (n : nat) (w : world) : world :=
  World (heap w) (brk w) (oom w) (in_place w) n (site w) (environ w)
        (relay__rubyThread w) (log w).

Definition with_environ (e : gmap string string) (w : world) : world :=
  World (heap w) (brk w) (oom w) (in_place w) (requests w) (site w) e
        (relay__rubyThread w) (log w).

Definition with_thread (t : option N) (w : world) : world :=
  World (heap w) (brk w) (oom w) (in_place w) (requests w) (site w)
        (environ w) t (log w).

Definition with_log (l : list call) (w : world) : world :=
  World (heap w) (brk w) (oom w) (in_place w) (requests w) (site w)
        (environ w) (relay__rubyThread w) l.

(** How a C function ends. *)
Inductive outcome (A : Type) :=
| Done (a : A)
| Exited (status : Z)
| Aborted
| Fault.
Arguments Done {A} a.
Arguments Exited {A} status.
Arguments Aborted {A}.
Arguments Fault {A}.

Definition M (A : Type) : Type := world -> outcome A * world.

Definition mret {A} (a : A) : M A := fun w => (Done a, w).

Definition mbind {A B} (m : M A) (k : A -> M B) : M B :=
  fun w =>
    match m w with
    | (Done a, w') => k a w'
    | (Exited st, w') => (Exited st, w')
    | (Aborted, w') => (Aborted, w')
    | (Fault, w') => (Fault, w')
    end.

Notation "'do' x <- m ; k" := (mbind m (fun x => k))
  (at level 10, x name, m at level 100, k at level 200).
Notation "'do_' m ; k" := (mbind m (fun _ => k))
  (at level 10, m at level 100, k at level 200).

Definition emit (c : call) : M unit :=
  fun w => (Done tt, with_log (log w ++ [c]) w).

Definition fault {A} : M A := fun w => (Fault, w).

(** *** libc *)

(** A request for storage: [None] when it fails, else a fresh address. *)
Definition request : M (option N) :=
  fun w =>
    let w' := with_requests (S (requests w)) w in
    if oom w (requests w) then (Done None, w')
    else (Done (Some (brk w)), with_brk (brk w + 1)%N w').

Definition malloc (fresh : block) : M N :=
  do r <- request;
  match r with
  | None => do_ emit (Cmalloc NULL); mret NULL
  | Some q =>
      do_ (fun w => (Done tt, with_heap (<[q := fresh]> (heap w)) w));
      do_ emit (Cmalloc q);
      mret q
  end.

(** [malloc (sizeof (relay__RubyOptions__def))]. *)
Definition malloc_options : M N := malloc (Options None None).

(** [malloc (sizeof (PLI_BYTE8* ) * n)]. *)
Definition malloc_args (n : Z) : M N := malloc (Args (replicate (Z.to_nat n) None)).

Definition resize (n : Z) (slots : list (option N)) : list (option N) :=
  take (Z.to_nat n) slots ++ replicate (Z.to_nat n - length slots)%nat None.

(** [realloc (a, sizeof (PLI_BYTE8* ) * n)] of a live array [a].  A size
    of zero releases the block and gives [NULL]; a failed request leaves
    the block alone and gives [NULL]; otherwise the block grows, where it
    is or at a fresh address with the old one released. *)
Definition realloc_args (a : N) (n : Z) : M N :=
  fun w =>
    match heap w !! a with
    | Some (Args slots) =>
        if decide (n = 0) then
          (do_ (fun w => (Done tt, with_heap (delete a (heap w)) w));
           do_ emit (Crealloc a NULL);
           mret NULL) w
        else
          let moving := negb (in_place w (requests w)) in
          (do r <- request;
           match r with
           | None => do_ emit (Crealloc a NULL); mret NULL
           | Some q =>
               if moving then
                 do_ (fun w => (Done tt,
                        with_heap (<[q := Args (resize n slots)]>
                                     (delete a (heap w))) w));
                 do_ emit (Crealloc a q);
                 mret q
               else
                 do_ (fun w => (Done tt,
                        with_heap (<[a := Args (resize n slots)]> (heap w)) w));
                 do_ emit (Crealloc a a);
                 mret a
           end) w
    | _ => (Fault, w)
    end.

Definition strdup (s : string) : M N :=
  do r <- request;
  match r with
  | None => do_ emit (Cstrdup s NULL); mret NULL
  | Some q =>
      do_ (fun w => (Done tt, with_heap (<[q := Str s]> (heap w)) w));
      do_ emit (Cstrdup s q);
      mret q
  end.

(** [free (q)]: nothing for [NULL], undefined on anything not live. *)
Definition free (q : N) : M unit :=
  fun w =>
    if decide (q = NULL) then emit (Cfree q) w
    else
      match heap w !! q with
      | Some _ => emit (Cfree q) (with_heap (delete q (heap w)) w)
      | None => (Fault, w)
      end.

Definition assert (b : bool) : M unit :=
  if b then mret tt
  else fun w => (Aborted, with_log (log w ++ [Cassert_fail]) w).

Definition exit {A} (status : Z) : M A :=
  fun w => (Exited status, with_log (log w ++ [Cexit status]) w).

Definition getenv (name : string) : M (option string) :=
  do_ emit (Cgetenv name);
  fun w => (Done (environ w !! name), w).

(** *** Loads and stores of the code *)

Definition load_mArgs (p : N) : M N :=
  fun w =>
    match heap w !! p with
    | Some (Options (Some a) _) => (Done a, w)
    | _ => (Fault, w)
    end.

Definition load_mCount (p : N) : M Z :=
  fun w =>
    match heap w !! p with
    | Some (Options _ (Some c)) => (Done c, w)
    | _ => (Fault, w)
    end.

Definition store_mArgs (p : N) (a : N) : M unit :=
  fun w =>
    match heap w !! p with
    | Some (Options _ c) =>
        (Done tt, with_heap (<[p := Options (Some a) c]> (heap w)) w)
    | _ => (Fault, w)
    end.

Definition store_mCount (p : N) (c : Z) : M unit :=
  fun w =>
    match heap w !! p with
    | Some (Options a _) =>
        (Done tt, with_heap (<[p := Options a (Some c)]> (heap w)) w)
    | _ => (Fault, w)
    end.

(** [argv[i]]. *)
Definition load_slot (argv : N) (i : Z) : M N :=
  fun w =>
    match heap w !! argv with
    | Some (Args slots) =>
        if decide (0 <= i) then
          match slots !! Z.to_nat i with
          | Some (Some q) => (Done q, w)
          | _ => (Fault, w)
          end
        else (Fault, w)
    | _ => (Fault, w)
    end.

(** [argv[i] = q]. *)
Definition store_slot (argv : N) (i : Z) (q : N) : M unit :=
  fun w =>
    match heap w !! argv with
    | Some (Args slots) =>
        if decide (0 <= i < Z.of_nat (length slots)) then
          (Done tt,
           with_heap (<[argv := Args (<[Z.to_nat i := Some q]> slots)]> (heap w)) w)
        else (Fault, w)
    | _ => (Fault, w)
    end.

(** *** The simulator and the interpreter *)

Definition vpi_handle_SysTfCall : M bool :=
  fun w =>
    let found := match site w with NoCall => false | _ => true end in
    (Done found, with_log (log w ++ [Cvpi_handle found]) w).

(** The iterator is the list of arguments still to be scanned. *)
Definition vpi_iterate_Argument : M (option (list string)) :=
  fun w =>
    let it := match site w with Arguments args => Some args | _ => None end in
    (Done it, with_log (log w ++ [Cvpi_iterate (bool_decide (it <> None))]) w).

Definition vpi_get_value (vArg : string) : M string :=
  do_ emit (Cvpi_get_value vArg);
  mret vArg.

(** What the option parser finds behind [argv[0 .. argc-1]]; [None] where
    there is no string to read. *)
Definition read_arg (h : gmap N block) (argv : N) (i : nat) : option string :=
  match h !! argv with
  | Some (Args slots) =>
      match slots !! i with
      | Some (Some q) =>
          match h !! q with
          | Some (Str s) => Some s
          | _ => None
          end
      | _ => None
      end
  | _ => None
  end.

(** The interpreter's C API, logged call by call. *)
Definition ruby_init : M unit := emit Cruby_init.
Definition ruby_init_loadpath : M unit := emit Cruby_init_loadpath.
Definition ruby_run : M unit := emit Cruby_run.
Definition ruby_finalize : M unit := emit Cruby_finalize.
Definition ruby_script (name : string) : M unit := emit (Cruby_script name).
Definition rb_load_file (name : string) : M unit := emit (Crb_load_file name).
Definition rb_define_module_function (name : string) (f : cfunc) (arity : Z)
  : M unit :=
  emit (Crb_define_module_function name f arity).

(** Modelled from the spec: [swig_init] (swig.h) and [Init_vpi]
    (swig_wrap.cin) are not among the sources; they install the VPI
    interface that Ruby programs call.  Here the calls are logged. *)
Definition swig_init : M unit := emit Cswig_init.
Definition Init_vpi : M unit := emit CInit_vpi.

(** Modelled from the spec: [common_printf] (common.h) is not among the
    sources; it reports its message as a diagnostic.  Here the call is
    logged with the message. *)
Definition common_printf (msg : string) : M unit := emit (Ccommon_printf msg).

Definition ruby_options (argc : Z) (argv : N) : M unit :=
  fun w =>
    emit (Cruby_options argc argv
            (map (read_arg (heap w) argv) (seq 0 (Z.to_nat argc)))) w.

Definition pthread_create_ruby_run_handshake (arg : N) : M unit :=
  fun w => (Done tt, with_thread (Some arg) (with_log (log w ++ [Cpthread_create arg]) w)).

(** *** relay.c *)

(** [for (i = 0; i < argc; i++) free (argv[i]);] with [n] turns left. *)
Fixpoint free_each (argv : N) (i : Z) (n : nat) : M unit :=
  match n with
  | O => mret tt
  | S n' =>
      do q <- load_slot argv i;
      do_ free q;
      free_each argv (uint (i + 1)) n'
  end.

Definition ruby_run_handshake (apRubyOptions : N) : M N :=
  do_ ruby_init;
  do_ ruby_init_loadpath;
  do_ swig_init;
  let pRubyOptions := apRubyOptions in
  do argv <- load_mArgs pRubyOptions;
  do argc <- load_mCount pRubyOptions;
  do_ ruby_options argc argv;
  do_ free_each argv 0 (Z.to_nat argc);
  do_ free argv;
  do_ free pRubyOptions;
  do_ ruby_run;
  do_ ruby_finalize;
  mret NULL.

(** The body of [while ((vArg = vpi_scan (vCallArgs)))]. *)
Definition capture_one (pRubyOptions : N) (vArg : string) : M unit :=
  do c <- load_mCount pRubyOptions;
  do_ store_mCount pRubyOptions (uint (c + 1));
  do a <- load_mArgs pRubyOptions;
  do n <- load_mCount pRubyOptions;
  do a' <- (if decide (a = NULL) then malloc_args n else realloc_args a n);
  do_ store_mArgs pRubyOptions a';
  do a'' <- load_mArgs pRubyOptions;
  do_ assert (bool_decide (a'' <> NULL));
  do str <- vpi_get_value vArg;
  do q <- strdup str;
  do a3 <- load_mArgs pRubyOptions;
  do c3 <- load_mCount pRubyOptions;
  store_slot a3 (uint (c3 - 1)) q.

(** [while ((vArg = vpi_scan (vCallArgs))) { ... }]: each [vpi_scan]
    takes the next argument off the iterator, or finds it at its end. *)
Fixpoint capture (pRubyOptions : N) (vCallArgs : list string) : M unit :=
  match vCallArgs with
  | [] => emit (Cvpi_scan None)
  | vArg :: rest =>
      do_ emit (Cvpi_scan (Some vArg));
      do_ capture_one pRubyOptions vArg;
      capture pRubyOptions rest
  end.

Definition relay_ruby_run : M unit :=
  do pRubyOptions <- malloc_options;
  if decide (pRubyOptions <> NULL) then
    do_ store_mArgs pRubyOptions NULL;
    do_ store_mCount pRubyOptions 0;
    do vCall <- vpi_handle_SysTfCall;
    do_ (if vCall then
           do vCallArgs <- vpi_iterate_Argument;
           match vCallArgs with
           | Some it => capture pRubyOptions it
           | None => mret tt
           end
         else mret tt);
    pthread_create_ruby_run_handshake pRubyOptions
  else
    do_ common_printf
          "error: unable to allocate memory for Ruby's command-line arguments.";
    exit EXIT_FAILURE.

(** A launch cycle: [relay_ruby_run] on the simulator's thread, then the
    thread it made running [ruby_run_handshake] on what it was given. *)
Definition launch_cycle : M N :=
  do_ relay_ruby_run;
  fun w =>
    match relay__rubyThread w with
    | Some p => ruby_run_handshake p w
    | None => (Fault, w)
    end.

(** *** main.c *)

Definition main_init : M unit :=
  do_ ruby_init;
  do_ ruby_init_loadpath;
  do_ Init_vpi;
  do_ rb_define_module_function "relay_verilog" Fmain_relay_verilog 0;
  do_ rb_define_module_function "relay_ruby_reason" Fmain_relay_ruby_reason 0;
  do benchFile <- getenv "RUBYVPI_BOOTSTRAP";
  do_ match benchFile with
      | Some f =>
          do_ ruby_script f;
          rb_load_file f
      | None =>
          do_ common_printf
                "error: environment variable RUBY_VPI__RUBY_BENCH_FILE is uninitialized.";
          exit EXIT_FAILURE
      end;
  do_ ruby_run;
  ruby_finalize.

(** *** Vocabulary of the properties *)

(** The allocator has never handed out [NULL] or an address it has yet to
    reach. *)
Definition sane (w : world) : Prop :=
  (0 < brk w)%N /\ forall x, (x = NULL \/ (brk w <= x)%N) -> heap w !! x = None.

(** The pointer stored for an argument: its copy, or [NULL] where
    [strdup] gave none. *)
Definition slot (q : option N) : N := default NULL q.

(** The argument buffer as [relay_ruby_run] builds it: the options
    structure at [p] counts [strs], its array [a] (none while the count is
    zero) holds one pointer per argument, and the i-th pointer, where
    [strdup] gave one, leads to a copy of the i-th string. *)
Record buffer (h : gmap N block) (p a : N) (qs : list (option N))
    (strs : list string) : Prop := Buffer {
  buf_options : h !! p = Some (Options (Some a) (Some (Z.of_nat (length strs))));
  buf_count : Z.of_nat (length strs) < 2 ^ 32;
  buf_array : if decide (a = NULL) then qs = []
              else h !! a = Some (Args (Some <$> (slot <$> qs)));
  buf_strings :
    Forall2 (fun q s => match q with
                        | Some x => h !! x = Some (Str s)
                        | None => True
                        end) qs strs;
  buf_distinct : NoDup (p :: a :: omap id qs);
  buf_nonnull : Forall (fun x => x <> NULL) (p :: omap id qs)
}.

(** The next [n] requests for storage are granted. *)
Definition granted (w : world) (n : nat) : Prop :=
  forall i, (i < n)%nat -> oom w (requests w + i) = false.

(** [h0] is [h] without the blocks at [l]. *)
Definition without (l : list N) (h h0 : gmap N block) : Prop :=
  forall x, h0 !! x = if decide (x ∈ l) then None else h !! x.

(** Releasing blocks one after the other. *)
Definition release (l : list N) (h : gmap N block) : gmap N block :=
  foldl (fun h q => delete q h) h l.

(** Readings of the log. *)
Definition scan_of (c : call) : option (option string) :=
  match c with Cvpi_scan r => Some r | _ => None end.

Definition value_read (c : call) : option string :=
  match c with Cvpi_get_value vArg => Some vArg | _ => None end.

Definition parsed (c : call) : option (Z * list (option string)) :=
  match c with Cruby_options argc _ received => Some (argc, received) | _ => None end.

Definition freed (c : call) : option N :=
  match c with Cfree q => Some q | _ => None end.

Definition spawned (c : call) : option N :=
  match c with Cpthread_create arg => Some arg | _ => None end.

(** A diagnostic, or the end of the process. *)
Definition is_failure (c : call) : bool :=
  match c with
  | Ccommon_printf _ | Cexit _ | Cassert_fail => true
  | _ => false
  end.

(** Calls that hand Ruby code to the interpreter or run it. *)
Definition runs_script (c : call) : bool :=
  match c with
  | Cruby_options _ _ _ | Crb_load_file _ | Cruby_run => true
  | _ => false
  end.

(** The environment variable a call reads. *)
Definition env_read (c : call) : option string :=
  match c with Cgetenv name => Some name | _ => None end.

(** In [l] the calls [inst] all come before any call that runs a
    script. *)
Definition installed_first (inst l : list call) : Prop :=
  exists pre post,
    l = pre ++ post /\
    Forall (fun c => c ∈ pre) inst /\
    Forall (fun c => runs_script c = false) pre.

(** Every call [m] logs satisfies [P], and [m] only adds to the log. *)
Definition emits (P : call -> Prop) {A} (m : M A) : Prop :=
  forall w, exists l, log (m w).2 = log w ++ l /\ Forall P l.

(** [msg] contains [name]. *)
Fixpoint mentions (name msg : string) : bool :=
  String.prefix name msg ||
  match msg with
  | EmptyString => false
  | String _ rest => mentions name rest
  end.

(** The calls relay.c makes. *)
Definition relay_call (c : call) : Prop :=
  match c with
  | CInit_vpi | Crb_define_module_function _ _ _ | Cgetenv _
  | Cruby_script _ | Crb_load_file _ => False
  | _ => True
  end.

(** The log of a capture of [rest]: every argument scanned once, in
    order, then the end of the iterator; every value read once, in order;
    nothing released, parsed, spawned or reported. *)
Definition reads_source (rest : list string) (l : list call) : Prop :=
  omap scan_of l = (Some <$> rest) ++ [None] /\
  omap value_read l = rest /\
  omap freed l = [] /\
  omap parsed l = [] /\
  omap spawned l = [] /\
  Forall (fun c => is_failure c = false) l.

(** What a function leaves alone of the process around it. *)
Definition same_process (w w' : world) : Prop :=
  oom w' = oom w /\ in_place w' = in_place w /\ site w' = site w /\
  environ w' = environ w.

(** The log of [relay_ruby_run] up to the creation of the thread, at call
    site [c]. *)
Definition launch_log (c : call_site) (l : list call) : Prop :=
  omap scan_of l =
    match c with
    | Arguments args => (Some <$> args) ++ [None]
    | _ => []
    end /\
  omap value_read l = source c /\
  omap freed l = [] /\
  omap parsed l = [] /\
  omap spawned l = [] /\
  Forall (fun c => is_failure c = false) l.

(** The scenario of a launch from [$ruby_init ("a.rb", "--seed", "42")]
    in a fresh process with storage to spare. *)
Definition scenario : world :=
  World ∅ 1 (fun _ => false) (fun _ => false) 0
        (Arguments ["a.rb"; "--seed"; "42"]) ∅ None [].

(** A fresh process at [$ruby_init ("a.rb")] in which every request for
    storage is granted but the [n]-th. *)
Definition starved (n : nat) : world :=
  World ∅ 1 (fun i => bool_decide (i = n)) (fun _ => false) 0
        (Arguments ["a.rb"]) ∅ None [].

(** A fresh process started with the variable of the diagnostic set and
    the variable [main_init] reads unset. *)
Definition misnamed : world :=
  World ∅ 1 (fun _ => false) (fun _ => false) 0 NoCall
        (<["RUBY_VPI__RUBY_BENCH_FILE" := "bench.rb"]> ∅) None [].

(** What the option parser finds behind the pointers of a buffer. *)
Definition delivered (qs : list (option N)) (strs : list string)
  : list (option string) :=
  zip_with (fun q s => match q with Some _ => Some s | None => None end) qs strs.

(** What the option parser is handed for [strs] when the copy of the
    i-th string is the request [first + 2 * i] to the allocator: the
    string where the request is granted, nothing where it fails. *)
Definition copies (w : world) (first : nat) (strs : list string)
  : list (option string) :=
  imap (fun i s => if oom w (first + 2 * i) then None else Some s) strs.

(** [m] starts no thread: it leaves [relay__rubyThread] as it found it
    and logs no [pthread_create]. *)
Definition starts_no_thread {A} (m : M A) : Prop :=
  forall w,
    relay__rubyThread (m w).2 = relay__rubyThread w /\
    exists l, log (m w).2 = log w ++ l /\ omap spawned l = [].

(** [m] starts no thread unless it returns. *)
Definition no_thread_unless_done {A} (m : M A) : Prop :=
  forall w,
    (forall a, (m w).1 <> Done a) ->
    relay__rubyThread (m w).2 = relay__rubyThread w /\
    exists l, log (m w).2 = log w ++ l /\ omap spawned l = [].

End Relay.

(* ===================================================================== *)
(** * Properties                                                         *)
(* ===================================================================== *)

Module BatonFacts.
Import Baton.

Lemma exec_app s tr1 tr2 :
  exec s (tr1 ++ tr2) =
  match exec s tr1 with Some s' => exec s' tr2 | None => None end.
Proof.
  revert s. induction tr1 as [|e tr1 IH]; intros s; simpl; [done|].
  destruct (step s e); [apply IH | done].
Qed.

(** [relay_init], run by the simulator thread from any state of the two
    mutexes, returns and leaves both gates locked. *)
Lemma relay_init_closes_gates s :
  pcVerilog s = ops relay_init ->
  exists s', exec s [Run Verilog; Run Verilog; Run Verilog; Run Verilog] = Some s'
             /\ gates_closed s' /\ active Verilog s' /\ pcRuby s' = pcRuby s.
Proof.
  destruct s as [r v kv kr]; simpl; intros ->.
  eexists; split; [reflexivity|]. by repeat split.
Qed.

Lemma alternating_step s e s' :
  alternating s -> own_side e -> step s e = Some s' -> alternating s'.
Proof.
  unfold alternating, on_track, turns.
  destruct s as [r v kv kr], e as [p h|p]; simpl;
    intros (Hv & Hr & Ht) Ho Hs.
  - destruct p; simpl in *; subst h;
      destruct Hv as [-> | [-> | ->]], Hr as [-> | [-> | ->]], r, v;
      simpl in *; simplify_eq; simpl; try lia; (split_and!; [tauto..|lia]).
  - destruct p; simpl in *;
      destruct Hv as [-> | [-> | ->]], Hr as [-> | [-> | ->]], r, v;
      simpl in *; simplify_eq; simpl; try lia; (split_and!; [tauto..|lia]).
Qed.

Lemma alternating_exec tr : forall s s',
  alternating s -> Forall own_side tr -> exec s tr = Some s' -> alternating s'.
Proof.
  induction tr as [|e tr IH]; simpl; intros s s' Hs Ho He.
  - by simplify_eq.
  - inversion Ho; subst. destruct (step s e) as [s1|] eqn:E; [|done].
    apply (IH s1); [by eapply alternating_step | done | done].
Qed.

Lemma alternating_exclusive s :
  alternating s ->
  ~ (unblocked Verilog s = true /\ unblocked Ruby s = true).
Proof.
  unfold alternating, on_track, turns, unblocked.
  destruct s as [r v kv kr]; simpl. intros (Hv & Hr & Ht) [H1 H2].
  destruct Hv as [-> | [-> | ->]], Hr as [-> | [-> | ->]], r, v;
    simpl in *; simplify_eq; lia.
Qed.

Lemma active_unblocked p s : active p s -> unblocked p s = true.
Proof. unfold active, unblocked. by intros ->. Qed.

(** The two handoffs are mirror images under the exchange of the gates
    (and of the threads). *)
Lemma body_dual h : body (dual_handoff h) = map dual_op (body h).
Proof. by destruct h. Qed.

Lemma step_dual s e :
  step (dual_sys s) (dual_event e) = dual_sys <$> step s e.
Proof.
  destruct s as [r v kv kr], e as [[] h|[]]; simpl.
  - destruct kv; simpl; [by destruct h | done].
  - destruct kr; simpl; [by destruct h | done].
  - destruct kv as [|[[]|[]|[]] kv]; simpl; try done; by destruct r, v.
  - destruct kr as [|[[]|[]|[]] kr]; simpl; try done; by destruct r, v.
Qed.

Lemma releases_then_waits_ruby :
  releases_then_waits RelayRuby RubyLock VerilogLock.
Proof.
  intros p s Hp. unfold active in Hp.
  destruct s as [r v kv kr], p; simpl in *; subst;
    (do 2 eexists; split_and!; try reflexivity;
     intros [r3 v3 kv3 kr3]; simpl; intros ->; destruct v3; simpl;
     [by split_and! | eexists; by split_and!]).
Qed.

Lemma releases_then_waits_verilog :
  releases_then_waits RelayVerilog VerilogLock RubyLock.
Proof.
  intros p s Hp. unfold active in Hp.
  destruct s as [r v kv kr], p; simpl in *; subst;
    (do 2 eexists; split_and!; try reflexivity;
     intros [r3 v3 kv3 kr3]; simpl; intros ->; destruct r3; simpl;
     [by split_and! | eexists; by split_and!]).
Qed.

(** C2.  [relay_ruby] first releases [relay__rubyLock] (the Ruby side's
    gate) and then holds its caller at [relay__verilogLock] until that
    gate is released; [relay_verilog] does the same with the two gates
    exchanged, and the exchange carries every step of the one onto a step
    of the other. *)
Theorem handoffs_release_then_wait :
  releases_then_waits RelayRuby RubyLock VerilogLock /\
  releases_then_waits RelayVerilog VerilogLock RubyLock /\
  body RelayVerilog = map dual_op (body RelayRuby) /\
  (forall s e, step (dual_sys s) (dual_event e) = dual_sys <$> step s e).
Proof.
  split_and!.
  - exact releases_then_waits_ruby.
  - exact releases_then_waits_verilog.
  - reflexivity.
  - exact step_dual.
Qed.

(** C1, as stated, fails.  After [relay_init] (both gates locked) and the
    launch, both threads are outside the baton.  The Ruby thread calls
    [relay_verilog], which releases [relay__verilogLock] and waits; the
    simulator calls [relay_ruby], which releases [relay__rubyLock] and
    finds [relay__verilogLock] released.  Each side has called only its
    own handoff, both calls have returned, the gates are locked again and
    the two threads are in their active regions together. *)
Lemma handoffs_after_launch_overlap :
  gates_closed launched /\
  Forall own_side first_handoffs /\
  exec launched (take 5 first_handoffs)
    = Some (Sys Unlocked Locked [] [MutexLock RubyLock]) /\
  exec launched first_handoffs = Some launched /\
  active Verilog launched /\ active Ruby launched /\
  ~ (forall tr s, Forall own_side tr -> exec launched tr = Some s ->
                  ~ (active Verilog s /\ active Ruby s)).
Proof.
  split_and!; try done.
  - repeat constructor.
  - intros H. apply (H first_handoffs launched); [repeat constructor|done..].
Qed.

(** C1, amended.  From both gates locked with one thread running and the
    other waiting at its own gate, whatever the interleaving of handoffs
    in which each side calls only its own, the two threads are never both
    unblocked, hence never both in an active region. *)
Theorem mutual_exclusion s0 tr s :
  gates_closed s0 ->
  one_waiting s0 ->
  Forall own_side tr ->
  exec s0 tr = Some s ->
  ~ (unblocked Verilog s = true /\ unblocked Ruby s = true) /\
  ~ (active Verilog s /\ active Ruby s).
Proof.
  intros Hg Hw Ho He.
  assert (alternating s0) as Ha.
  { destruct s0 as [r v kv kr]. destruct Hg as [Hr Hv]. simpl in *. subst.
    unfold one_waiting in Hw. unfold alternating, on_track, turns.
    simpl in *.
    destruct Hw as [[Hkv Hkr]|[Hkv Hkr]]; subst; simpl; split_and!; auto. }
  pose proof (alternating_exec tr s0 s Ha Ho He) as Hs.
  pose proof (alternating_exclusive s Hs) as Hx.
  split; [done|]. intros [H1 H2]. apply Hx.
  split; by apply active_unblocked.
Qed.

Lemma mutual_exclusion_witness :
  ~ (unblocked Verilog (Sys Locked Unlocked [MutexLock VerilogLock] [MutexLock RubyLock]) = true /\
     unblocked Ruby (Sys Locked Unlocked [MutexLock VerilogLock] [MutexLock RubyLock]) = true) /\
  ~ (active Verilog (Sys Locked Unlocked [MutexLock VerilogLock] [MutexLock RubyLock]) /\
     active Ruby (Sys Locked Unlocked [MutexLock VerilogLock] [MutexLock RubyLock])).
Proof.
  apply (mutual_exclusion parked
           [Invoke Verilog RelayRuby; Run Verilog; Run Ruby;
            Invoke Ruby RelayVerilog; Run Ruby]).
  - split; reflexivity.
  - left. split; reflexivity.
  - repeat constructor.
  - reflexivity.
Defined.

Lemma stuck_in_twice_step s e s' :
  stuck_in_twice s -> no_relay_verilog e -> step s e = Some s' ->
  stuck_in_twice s'.
Proof.
  unfold stuck_in_twice, keeps_verilogLock.
  destruct s as [r v kv kr], e as [p h|p]; simpl; intros [Hk Hv] Hn Hs.
  - subst h. destruct p; simpl in *.
    + destruct Hv as [Hv | [Hv | [[Hv _] | [Hv _]]]]; subst kv; done.
    + destruct kr; simplify_eq; simpl. split; [|done].
      repeat constructor; done.
  - destruct p; simpl in *.
    + destruct Hv as [Hv | [Hv | [[Hv Hl] | [Hv Hl]]]]; subst; simpl in *;
        repeat case_match; simplify_eq; simpl; split; auto 6.
    + destruct kr as [|o kr]; [done|].
      inversion Hk as [|? ? [Ho1 Ho2] Hk']; subst.
      destruct o as [[]|[]|[]]; simpl in *; try done;
        destruct r, v; simplify_eq; simpl; (split; [done|]);
        destruct Hv as [Hv | [Hv | [[Hv Hl] | [Hv Hl]]]]; auto; try done.
Qed.

Lemma stuck_in_twice_exec tr : forall s s',
  stuck_in_twice s -> Forall no_relay_verilog tr -> exec s tr = Some s' ->
  stuck_in_twice s'.
Proof.
  induction tr as [|e tr IH]; simpl; intros s s' Hs Hn He.
  - by simplify_eq.
  - inversion Hn; subst. destruct (step s e) as [s1|] eqn:E; [|done].
    apply (IH s1); [by eapply stuck_in_twice_step | done | done].
Qed.

Lemma stuck_in_twice_blocked s :
  stuck_in_twice s ->
  ~ active Verilog s /\
  (pcVerilog s = [MutexLock VerilogLock] ->
   unblocked Verilog s = false /\ step s (Run Verilog) = None).
Proof.
  intros [_ Hv]. unfold active, unblocked. destruct s as [r v kv kr]; simpl in *.
  destruct Hv as [-> | [-> | [[-> ->] | [-> ->]]]]; simpl; split; done.
Qed.

(** C6.  The simulator thread calls [relay_ruby] twice in a row, and from
    the start of the first call (first part), or from the return of the
    first call (second part), no [relay_verilog] is called and none is
    under way.  Then in every interleaving the second call never returns:
    the simulator thread never gets back to its own code, and once it
    stands at the second lock the gate is locked and it cannot move.
    Nothing in the baton reports this: a step gives a new state or no move
    at all. *)
Theorem relay_ruby_twice_deadlocks :
  (forall s tr s',
      pcVerilog s = ops relay_ruby_twice ->
      Forall keeps_verilogLock (pcRuby s) ->
      Forall no_relay_verilog tr ->
      exec s tr = Some s' ->
      ~ active Verilog s' /\
      (pcVerilog s' = [MutexLock VerilogLock] ->
       unblocked Verilog s' = false /\ step s' (Run Verilog) = None)) /\
  (forall s0 s tr s',
      pcVerilog s0 = drop 1 (ops relay_ruby) ->
      step s0 (Run Verilog) = Some s ->
      Forall keeps_verilogLock (pcRuby s) ->
      Forall no_relay_verilog tr ->
      exec s (Invoke Verilog RelayRuby :: tr) = Some s' ->
      active Verilog s /\
      ~ active Verilog s' /\
      (pcVerilog s' = [MutexLock VerilogLock] ->
       unblocked Verilog s' = false /\ step s' (Run Verilog) = None)).
Proof.
  split.
  - intros s tr s' Hpc Hk Hn He.
    apply stuck_in_twice_blocked.
    apply (stuck_in_twice_exec tr s); [|done..]. split; auto.
  - intros s0 s tr s' Hpc Hstep Hk Hn He.
    destruct s0 as [r v kv kr]. simpl in Hpc. subst kv.
    simpl in Hstep. destruct v; simplify_eq/=. split; [done|].
    apply stuck_in_twice_blocked.
    apply (stuck_in_twice_exec tr (Sys r Locked (ops relay_ruby) kr)); [|done..].
    split; [done|]. simpl. auto.
Qed.

Lemma relay_ruby_twice_deadlocks_witness :
  (~ active Verilog (Sys Locked Locked [MutexLock VerilogLock] []) /\
   (pcVerilog (Sys Locked Locked [MutexLock VerilogLock] [])
      = [MutexLock VerilogLock] ->
    unblocked Verilog (Sys Locked Locked [MutexLock VerilogLock] []) = false /\
    step (Sys Locked Locked [MutexLock VerilogLock] []) (Run Verilog) = None)) /\
  (active Verilog parked /\
   ~ active Verilog (Sys Locked Locked [MutexLock VerilogLock] []) /\
   (pcVerilog (Sys Locked Locked [MutexLock VerilogLock] [])
      = [MutexLock VerilogLock] ->
    unblocked Verilog (Sys Locked Locked [MutexLock VerilogLock] []) = false /\
    step (Sys Locked Locked [MutexLock VerilogLock] []) (Run Verilog) = None)).
Proof.
  split.
  - apply (proj1 relay_ruby_twice_deadlocks
             (Sys Locked Unlocked (ops relay_ruby_twice) [MutexLock RubyLock])
             [Run Verilog; Run Verilog; Run Verilog; Run Ruby]).
    + reflexivity.
    + repeat constructor; done.
    + repeat constructor.
    + reflexivity.
  - apply (proj2 relay_ruby_twice_deadlocks
             (Sys Locked Unlocked [MutexLock VerilogLock] [MutexLock RubyLock])
             parked
             [Run Verilog; Run Ruby]).
    + reflexivity.
    + reflexivity.
    + repeat constructor; done.
    + repeat constructor.
    + reflexivity.
Defined.

(** C9.  [main_relay_verilog] makes exactly the pthread calls of one
    [relay_verilog] and returns its receiver. *)
Theorem main_relay_verilog_returns_self (VALUE : Type) (arSelf : VALUE) :
  result (main_relay_verilog arSelf) = arSelf /\
  ops (main_relay_verilog arSelf) = ops relay_verilog /\
  ops (main_relay_verilog arSelf) = body RelayVerilog.
Proof. by split_and!. Qed.

(** *** Alternation *)

Lemma relay_init_closes_gates_witness :
  exists s', exec (Sys Unlocked Locked (ops relay_init) [])
                  [Run Verilog; Run Verilog; Run Verilog; Run Verilog] = Some s'
             /\ gates_closed s' /\ active Verilog s' /\ pcRuby s' = [].
Proof.
  apply (relay_init_closes_gates (Sys Unlocked Locked (ops relay_init) [])).
  reflexivity.
Defined.

Lemma phase_step k e s :
  (k < 6)%nat -> own_side e -> step (phase k) e = Some s ->
  round !! k = Some e /\ s = phase (S k mod 6).
Proof.
  intros Hk Ho Hs.
  destruct k as [|[|[|[|[|[|k]]]]]]; try lia;
    destruct e as [[] h|[]]; simpl in Ho; subst; vm_compute in Hs;
    simplify_eq; by vm_compute.
Qed.

Lemma phase_exec tr : forall k s,
  (k < 6)%nat -> Forall own_side tr -> exec (phase k) tr = Some s ->
  (forall i e, tr !! i = Some e -> round !! ((k + i) mod 6) = Some e) /\
  s = phase ((k + length tr) mod 6).
Proof.
  induction tr as [|e tr IH]; intros k s Hk Ho He.
  - simpl in He. simplify_eq. split; [by intros i e H|].
    cbn [length]. by rewrite Nat.add_0_r, Nat.mod_small.
  - inversion Ho as [|? ? Ho1 Ho2]; subst. simpl in He.
    destruct (step (phase k) e) as [s1|] eqn:E; [|done].
    destruct (phase_step k e s1 Hk Ho1 E) as [He1 ->].
    destruct (IH (S k mod 6) s) as [Hev Hs]; try done.
    { apply Nat.mod_upper_bound. lia. }
    split.
    + intros [|i] e' Hi; simpl in Hi.
      * simplify_eq. rewrite Nat.add_0_r. by rewrite Nat.mod_small.
      * rewrite <- (Hev i e' Hi).
        rewrite Nat.Div0.add_mod_idemp_l. do 2 f_equal. lia.
    + rewrite Hs. rewrite Nat.Div0.add_mod_idemp_l. cbn [length].
      do 2 f_equal. lia.
Qed.

(** Strict alternation.  From [parked], when each side calls only its own
    handoff, there is one way for things to go: the i-th event of any
    execution is the (i mod 6)-th event of [round], and the state reached
    is the one that many events into a round.  So the handoffs alternate,
    simulator first, and [relay_ruby] returns only after the Ruby thread
    has run and called [relay_verilog]. *)
Theorem handoffs_alternate tr s :
  Forall own_side tr ->
  exec parked tr = Some s ->
  (forall i e, tr !! i = Some e -> round !! (i mod 6) = Some e) /\
  exec parked (take (length tr mod 6) round) = Some s.
Proof.
  intros Ho He.
  destruct (phase_exec tr 0 s) as [Hev Hs]; [lia|done|done|].
  split; [exact Hev|]. change (0 + length tr)%nat with (length tr) in Hs.
  subst s. clear.
  pose proof (Nat.mod_upper_bound (length tr) 6 ltac:(lia)) as Hlt.
  destruct (length tr mod 6)%nat as [|[|[|[|[|[|k]]]]]]; try lia; reflexivity.
Qed.

Lemma handoffs_alternate_witness :
  (forall i e, (round ++ take 4 round) !! i = Some e ->
               round !! (i mod 6) = Some e) /\
  exec parked (take (length (round ++ take 4 round) mod 6) round)
    = Some (Sys Locked Locked [MutexLock VerilogLock] (ops relay_verilog)).
Proof.
  apply (handoffs_alternate (round ++ take 4 round)).
  - repeat constructor.
  - reflexivity.
Defined.

(** No deadlock.  In every state reached from [parked] by handoffs in
    which each side calls only its own, exactly one thing can happen next:
    one event of that kind is possible, and no other. *)
Theorem handoffs_never_stall tr s :
  Forall own_side tr ->
  exec parked tr = Some s ->
  exists e, own_side e /\ is_Some (step s e) /\
            forall e', own_side e' -> is_Some (step s e') -> e' = e.
Proof.
  intros Ho He.
  destruct (phase_exec tr 0 s) as [_ Hs]; [lia|done|done|].
  change (0 + length tr)%nat with (length tr) in Hs.
  pose proof (Nat.mod_upper_bound (length tr) 6 ltac:(lia)) as Hlt.
  set (k := (length tr mod 6)%nat) in *. clearbody k.
  assert (exists e, round !! k = Some e) as [e Hek].
  { apply lookup_lt_is_Some. simpl. lia. }
  exists e. subst s. split_and!.
  - destruct k as [|[|[|[|[|[|k]]]]]]; try lia; simpl in Hek; simplify_eq; done.
  - destruct k as [|[|[|[|[|[|k]]]]]]; try lia; simpl in Hek; simplify_eq;
      eexists; vm_compute; reflexivity.
  - intros e' Ho' [s' Hs'].
    destruct (phase_step k e' s' Hlt Ho' Hs') as [He' _]. congruence.
Qed.

Lemma handoffs_never_stall_witness :
  exists e, own_side e /\
            is_Some (step (Sys Unlocked Locked [MutexLock VerilogLock]
                               [MutexLock RubyLock]) e) /\
            forall e', own_side e' ->
                       is_Some (step (Sys Unlocked Locked [MutexLock VerilogLock]
                                          [MutexLock RubyLock]) e') ->
                       e' = e.
Proof.
  apply (handoffs_never_stall [Invoke Verilog RelayRuby; Run Verilog]).
  - repeat constructor.
  - reflexivity.
Defined.

(** A call from the wrong side.  The simulator waits in [relay_ruby] at
    its locked gate and the Ruby thread, running, calls [relay_ruby]
    instead of [relay_verilog]: it releases its own gate and comes to wait
    at the simulator's gate too.  From there nothing can happen any
    more. *)
Theorem wrong_side_call_deadlocks s :
  pcVerilog s = [MutexLock VerilogLock] ->
  relay__verilogLock s = Locked ->
  active Ruby s ->
  exists s',
    exec s [Invoke Ruby RelayRuby; Run Ruby] = Some s' /\
    relay__rubyLock s' = Unlocked /\
    pcRuby s' = [MutexLock VerilogLock] /\
    stuck s'.
Proof.
  unfold active. destruct s as [r v kv kr]. simpl. intros -> -> ->.
  eexists. split_and!; try reflexivity.
  intros [[] h|[]]; reflexivity.
Qed.

Lemma wrong_side_call_deadlocks_witness :
  exists s',
    exec (Sys Locked Locked [MutexLock VerilogLock] [])
         [Invoke Ruby RelayRuby; Run Ruby] = Some s' /\
    relay__rubyLock s' = Unlocked /\
    pcRuby s' = [MutexLock VerilogLock] /\
    stuck s'.
Proof.
  apply (wrong_side_call_deadlocks (Sys Locked Locked [MutexLock VerilogLock] []));
    reflexivity.
Defined.

End BatonFacts.

Module RelayFacts.
Import Relay.

Local Open Scope Z_scope.

Ltac unfold_api :=
  unfold ruby_init, ruby_init_loadpath, swig_init, ruby_run, ruby_finalize,
    Init_vpi, rb_define_module_function, ruby_script, rb_load_file,
    common_printf.

(** *** main.c *)

Lemma main_init_unset w :
  environ w !! "RUBYVPI_BOOTSTRAP" = None ->
  (main_init w).1 = Exited EXIT_FAILURE /\
  log (main_init w).2 =
    log w ++
    [Cruby_init; Cruby_init_loadpath; CInit_vpi;
     Crb_define_module_function "relay_verilog" Fmain_relay_verilog 0;
     Crb_define_module_function "relay_ruby_reason" Fmain_relay_ruby_reason 0;
     Cgetenv "RUBYVPI_BOOTSTRAP";
     Ccommon_printf
       "error: environment variable RUBY_VPI__RUBY_BENCH_FILE is uninitialized.";
     Cexit EXIT_FAILURE].
Proof.
  intros H. unfold main_init. unfold_api. unfold getenv, mbind, emit, exit. simpl.
  rewrite H. simpl. split; [done|]. by rewrite <- !app_assoc.
Qed.

Lemma main_init_set w f :
  environ w !! "RUBYVPI_BOOTSTRAP" = Some f ->
  (main_init w).1 = Done tt /\
  log (main_init w).2 =
    log w ++
    [Cruby_init; Cruby_init_loadpath; CInit_vpi;
     Crb_define_module_function "relay_verilog" Fmain_relay_verilog 0;
     Crb_define_module_function "relay_ruby_reason" Fmain_relay_ruby_reason 0;
     Cgetenv "RUBYVPI_BOOTSTRAP";
     Cruby_script f; Crb_load_file f; Cruby_run; Cruby_finalize].
Proof.
  intros H. unfold main_init. unfold_api. unfold getenv, mbind, emit, exit. simpl.
  rewrite H. simpl. split; [done|]. by rewrite <- !app_assoc.
Qed.

(** *** What relay.c logs *)

Lemma emits_ret {A} P (a : A) : emits P (mret a).
Proof. intros w. exists []. by rewrite app_nil_r. Qed.

Lemma emits_bind {A B} P (m : M A) (k : A -> M B) :
  emits P m -> (forall a, emits P (k a)) -> emits P (mbind m k).
Proof.
  intros Hm Hk w. unfold mbind.
  destruct (Hm w) as (l1 & E1 & F1).
  destruct (m w) as [[a|st| |] w1]; simpl in *; try by eauto.
  destruct (Hk a w1) as (l2 & E2 & F2).
  exists (l1 ++ l2). rewrite E2, E1, app_assoc. split; [done|].
  by apply Forall_app.
Qed.

Ltac emits_step :=
  first
    [ exists []; split; [by rewrite app_nil_r | by constructor]
    | eexists [_]; split; [reflexivity | by repeat constructor] ].

Ltac emits_prim :=
  intros w; cbv beta delta [mbind mret emit]; simpl;
  repeat case_match; simpl; emits_step.

Lemma emits_emit P c : P c -> emits P (emit c).
Proof. intros H w. exists [c]. by repeat constructor. Qed.

Lemma emits_request : emits relay_call request.
Proof. unfold request. emits_prim. Qed.

Lemma emits_malloc b : emits relay_call (malloc b).
Proof.
  unfold malloc. apply emits_bind; [apply emits_request|].
  intros [q|]; emits_prim.
Qed.

Lemma emits_strdup s : emits relay_call (strdup s).
Proof.
  unfold strdup. apply emits_bind; [apply emits_request|].
  intros [q|]; emits_prim.
Qed.

Lemma emits_realloc_args a n : emits relay_call (realloc_args a n).
Proof.
  intros w. unfold realloc_args, request, mbind, mret, emit. simpl.
  repeat case_match; simplify_eq; simpl; emits_step.
Qed.

Lemma emits_free q : emits relay_call (free q).
Proof. unfold free. emits_prim. Qed.

Lemma emits_assert b : emits relay_call (assert b).
Proof. unfold assert. destruct b; emits_prim. Qed.

Lemma emits_exit {A} st : emits relay_call (@exit A st).
Proof. unfold exit. emits_prim. Qed.

Lemma emits_load_mArgs p : emits relay_call (load_mArgs p).
Proof. unfold load_mArgs. emits_prim. Qed.

Lemma emits_load_mCount p : emits relay_call (load_mCount p).
Proof. unfold load_mCount. emits_prim. Qed.

Lemma emits_store_mArgs p a : emits relay_call (store_mArgs p a).
Proof. unfold store_mArgs. emits_prim. Qed.

Lemma emits_store_mCount p c : emits relay_call (store_mCount p c).
Proof. unfold store_mCount. emits_prim. Qed.

Lemma emits_load_slot a i : emits relay_call (load_slot a i).
Proof. unfold load_slot. emits_prim. Qed.

Lemma emits_store_slot a i q : emits relay_call (store_slot a i q).
Proof. unfold store_slot. emits_prim. Qed.

Lemma emits_vpi_handle : emits relay_call vpi_handle_SysTfCall.
Proof. unfold vpi_handle_SysTfCall. emits_prim. Qed.

Lemma emits_vpi_iterate : emits relay_call vpi_iterate_Argument.
Proof. unfold vpi_iterate_Argument. emits_prim. Qed.

Lemma emits_vpi_get_value v : emits relay_call (vpi_get_value v).
Proof. unfold vpi_get_value. emits_prim. Qed.

Lemma emits_ruby_options argc argv : emits relay_call (ruby_options argc argv).
Proof. unfold ruby_options. emits_prim. Qed.

Lemma emits_pthread_create p :
  emits relay_call (pthread_create_ruby_run_handshake p).
Proof. unfold pthread_create_ruby_run_handshake. emits_prim. Qed.

Create HintDb emits.
#[local] Hint Resolve emits_ret emits_request emits_malloc emits_strdup
  emits_realloc_args emits_free emits_assert emits_exit emits_load_mArgs
  emits_load_mCount emits_store_mArgs emits_store_mCount emits_load_slot
  emits_store_slot emits_vpi_handle emits_vpi_iterate emits_vpi_get_value
  emits_ruby_options emits_pthread_create : emits.

Ltac emits_seq :=
  repeat first
    [ solve [auto with emits]
    | apply emits_emit; exact I
    | apply emits_bind; [|intros ?]
    | case_decide
    | case_match ].

Lemma emits_free_each argv n : forall i, emits relay_call (free_each argv i n).
Proof.
  induction n as [|n IH]; intros i; simpl; [apply emits_ret|].
  apply emits_bind; [auto with emits|]. intros q.
  apply emits_bind; [auto with emits|]. intros _. apply IH.
Qed.

Lemma emits_capture_one p v : emits relay_call (capture_one p v).
Proof. unfold capture_one, malloc_args. emits_seq. Qed.

Lemma emits_capture p it : emits relay_call (capture p it).
Proof.
  induction it as [|v it IH]; simpl; [by apply emits_emit|].
  apply emits_bind; [by apply emits_emit|]. intros _.
  apply emits_bind; [apply emits_capture_one|]. intros _. apply IH.
Qed.

Lemma emits_ruby_run_handshake p : emits relay_call (ruby_run_handshake p).
Proof.
  unfold ruby_run_handshake. unfold_api.
  pose proof (emits_free_each) as Hf. emits_seq.
Qed.

Lemma emits_relay_ruby_run : emits relay_call relay_ruby_run.
Proof.
  pose proof emits_capture as Hc.
  unfold relay_ruby_run, malloc_options. unfold_api. emits_seq.
Qed.

Lemma emits_launch_cycle : emits relay_call launch_cycle.
Proof.
  unfold launch_cycle. apply emits_bind; [apply emits_relay_ruby_run|].
  intros _ w. destruct (relay__rubyThread w) as [p|].
  - apply emits_ruby_run_handshake.
  - exists []. by rewrite app_nil_r.
Qed.

(** *** Running the primitives *)

Lemma lookup_release l : forall (h : gmap N block) x,
  release l h !! x = if decide (x ∈ l) then None else h !! x.
Proof.
  induction l as [|q l IH]; intros h x.
  - destruct (decide (x ∈ [])) as [Hx|_]; [by apply elem_of_nil in Hx | done].
  - unfold release in *. simpl. rewrite IH.
    destruct (decide (x = q)) as [->|Hne].
    + rewrite lookup_delete_eq.
      destruct (decide (q ∈ q :: l)) as [|Hn]; [by destruct (decide (q ∈ l))|].
      exfalso. apply Hn, elem_of_cons. auto.
    + rewrite lookup_delete_ne by done.
      destruct (decide (x ∈ l)) as [Hx|Hx], (decide (x ∈ q :: l)) as [Hy|Hy];
        try done.
      * exfalso. apply Hy, elem_of_cons. auto.
      * apply elem_of_cons in Hy as [?|?]; done.
Qed.

Lemma live_below w x b :
  sane w -> heap w !! x = Some b -> x <> NULL /\ (x < brk w)%N.
Proof.
  intros [_ Hs] Hx. split.
  - intros ->. rewrite Hs in Hx; [done | by left].
  - destruct (decide (x < brk w)%N); [done|].
    rewrite Hs in Hx; [done | right; lia].
Qed.

Lemma uint_small z : 0 <= z < 2 ^ 32 -> uint z = z.
Proof. intros H. unfold uint. by apply Z.mod_small. Qed.

Lemma resize_grow (ptrs : list N) :
  resize (Z.of_nat (length ptrs) + 1) (Some <$> ptrs) = (Some <$> ptrs) ++ [None].
Proof.
  unfold resize.
  replace (Z.to_nat (Z.of_nat (length ptrs) + 1)) with (S (length ptrs)) by lia.
  rewrite length_fmap, take_ge by (rewrite length_fmap; lia).
  by replace (S (length ptrs) - length ptrs)%nat with 1%nat by lia.
Qed.

Lemma fill_last (ptrs : list N) q :
  <[length ptrs := Some q]> ((Some <$> ptrs) ++ [None]) = Some <$> (ptrs ++ [q]).
Proof.
  rewrite fmap_app. simpl.
  rewrite insert_app_r_alt by (rewrite length_fmap; lia).
  rewrite length_fmap. by replace (length ptrs - length ptrs)%nat with 0%nat by lia.
Qed.

#[local] Arguments uint : simpl never.
#[local] Arguments Z.of_nat : simpl never.
#[local] Arguments Z.add : simpl never.
#[local] Arguments Z.sub : simpl never.
#[local] Arguments Z.pow : simpl never.
#[local] Arguments N.add : simpl never.
#[local] Arguments resize : simpl never.

Ltac lookup_all := repeat first [rewrite lookup_insert | rewrite lookup_delete].

Ltac heap_step :=
  first
    [ rewrite lookup_insert_eq
    | rewrite lookup_insert_ne by (lia || done)
    | rewrite lookup_delete_ne by (lia || done)
    | match goal with
      | H : ?h !! ?x = _ |- context [?h !! ?x] => rewrite H
      | H : ?f ?x = false |- context [?f ?x] => rewrite H
      | H : ?f ?x = true |- context [?f ?x] => rewrite H
      | H : uint ?z = _ |- context [uint ?z] => rewrite H
      end
    | rewrite uint_small by lia
    | rewrite resize_grow
    | rewrite decide_True by (rewrite ?length_app, ?length_fmap; simpl; lia || done)
    | rewrite decide_False by (lia || done)
    | rewrite bool_decide_true by (unfold NULL; lia || done)
    | rewrite bool_decide_false by (unfold NULL; lia || tauto) ].

Ltac heap_run := repeat (simpl; heap_step); simpl.

Ltac unfold_relay :=
  unfold capture_one, ruby_run_handshake, malloc_options, malloc_args, malloc,
    strdup, realloc_args, request, free, assert, vpi_get_value, ruby_options,
    load_mCount, load_mArgs, store_mCount, store_mArgs, load_slot, store_slot,
    emit, mret, mbind.

Lemma buffer_live h p a qs strs x :
  buffer h p a qs strs -> x ∈ omap id qs -> exists s, h !! x = Some (Str s).
Proof.
  intros [_ _ _ Hs _ _] Hx.
  apply list_elem_of_omap in Hx as ([y|] & Hy & E); simplify_eq/=.
  apply list_elem_of_lookup in Hy as [i Hi].
  destruct (Forall2_lookup_l _ _ _ _ _ Hs Hi) as (s' & _ & Hx). eauto.
Qed.

Lemma fill_slot (qs : list (option N)) q x :
  x = slot q ->
  <[length (slot <$> qs) := Some x]> ((Some <$> (slot <$> qs)) ++ [None])
  = Some <$> (slot <$> (qs ++ [q])).
Proof. intros ->. rewrite fill_last. by rewrite (fmap_app slot). Qed.


(** Closing the goals left by a run of [capture_one]: [q] is what
    [strdup] gave. *)
Ltac split_ors :=
  repeat match goal with H : _ \/ _ |- _ => destruct H as [H|H] end.

Ltac close_sane Hfresh :=
  split; simpl; [lia|];
  let x := fresh "x" in let Hx := fresh "Hx" in
  intros x Hx; lookup_all;
  repeat case_decide; subst;
  try (exfalso; unfold NULL in *; destruct Hx; lia);
  apply Hfresh; destruct Hx; [by left | right; lia].

Ltac close_strings Hs Hlive :=
  apply Forall2_app;
  [ eapply Forall2_impl; [exact Hs|];
    let x := fresh "x" in let y := fresh "y" in let Hx := fresh "Hx" in
    intros [x|] y Hx; [|done]; simpl in Hx;
    destruct (Hlive _ _ Hx); lookup_all;
    repeat case_decide; subst; try done; try congruence; lia
  | repeat constructor; simpl; try done; by heap_run ].

Ltac close_without Hw Hfresh :=
  let x := fresh "x" in
  intros x; rewrite Hw; lookup_all;
  match goal with
  | |- (if decide (x ∈ ?l1) then _ else _) = (if decide (x ∈ ?l2) then _ else _) =>
      let Hx := fresh "Hx" in let Hy := fresh "Hy" in
      destruct (decide (x ∈ l1)) as [Hx|Hx], (decide (x ∈ l2)) as [Hy|Hy];
      rewrite ?elem_of_cons, ?elem_of_app, ?list_elem_of_singleton, ?elem_of_nil in *;
      try done;
      first
        [ solve [ repeat case_decide; subst; try done;
                  try (exfalso; intuition congruence);
                  try (symmetry; apply Hfresh; left; intuition congruence) ]
        | solve [ split_ors; subst; try done; try tauto;
                  exfalso; intuition congruence ] ]
  end.

Lemma capture_one_spec w p a qs strs s h0 :
  sane w ->
  buffer (heap w) p a qs strs ->
  without (p :: a :: omap id qs) (heap w) h0 ->
  exists o w',
    capture_one p s w = (o, w') /\
    match o with
    | Done _ =>
        exists a',
          let q := if oom w (S (requests w)) then None
                   else Some (brk w + 1)%N in
          oom w (requests w) = false /\
          sane w' /\
          buffer (heap w') p a' (qs ++ [q]) (strs ++ [s]) /\
          without (p :: a' :: omap id (qs ++ [q])) (heap w') h0 /\
          (brk w <= brk w')%N /\
          requests w' = S (S (requests w)) /\
          same_process w w' /\
          relay__rubyThread w' = relay__rubyThread w /\
          log w' = log w ++
            [if decide (a = NULL) then Cmalloc a' else Crealloc a a';
             Cvpi_get_value s; Cstrdup s (slot q)]
    | Aborted =>
        oom w (requests w) = true \/ Z.of_nat (length strs) + 1 = 2 ^ 32
    | _ => False
    end.
Proof.
  intros Hsane Hbuf Hw.
  assert (forall x, x ∈ omap id qs -> exists s, heap w !! x = Some (Str s)) as Hqs
    by (intros; by eapply buffer_live).
  destruct Hbuf as [Hp Hc Ha Hs Hd Hn].
  pose proof (Forall2_length _ _ _ Hs) as Hlen.
  assert (forall x bl, heap w !! x = Some bl -> x <> NULL /\ (x < brk w)%N) as Hlive
    by (intros; by eapply live_below).
  destruct Hsane as [Hb Hfresh].
  destruct w as [h b om ip r st env th lg]; simpl in *.
  destruct (Hlive _ _ Hp) as [Hp0 Hpb].
  assert (h !! b = None) as Hq1 by (apply Hfresh; right; lia).
  assert (h !! (b + 1)%N = None) as Hq2 by (apply Hfresh; right; lia).
  destruct (decide (a = NULL)) as [->|Hane].
  - subst qs. inversion Hs; subst. simpl in *.
    destruct (om r) eqn:Ho1.
    { unfold_relay. heap_run. do 2 eexists. split; [reflexivity|]. by left. }
    destruct (om (S r)) eqn:Ho2; unfold_relay; heap_run.
    + do 2 eexists. split; [reflexivity|]. simpl. exists b.
      split_and!; try done; try lia.
      * close_sane Hfresh.
      * constructor.
        -- by heap_run.
        -- simpl; lia.
        -- rewrite decide_False by (unfold NULL; lia); by heap_run.
        -- repeat constructor.
        -- simpl; repeat (apply NoDup_cons; split);
           rewrite ?elem_of_cons, ?elem_of_nil; try apply NoDup_nil_2;
           unfold NULL in *; lia.
        -- simpl; repeat constructor; unfold NULL in *; lia.
      * simpl. close_without Hw Hfresh.
      * by rewrite <- !app_assoc.
    + do 2 eexists. split; [reflexivity|]. simpl. exists b.
      split_and!; try done; try lia.
      * close_sane Hfresh.
      * constructor.
        -- by heap_run.
        -- simpl; lia.
        -- rewrite decide_False by (unfold NULL; lia); by heap_run.
        -- repeat constructor. simpl. by heap_run.
        -- simpl; repeat (apply NoDup_cons; split);
           rewrite ?elem_of_cons, ?elem_of_nil; try apply NoDup_nil_2;
           unfold NULL in *; lia.
        -- simpl; repeat constructor; unfold NULL in *; lia.
      * simpl. close_without Hw Hfresh.
      * by rewrite <- !app_assoc.
  - destruct (Hlive _ _ Ha) as [_ Hab].
    assert (p <> a) as Hpa.
    { apply NoDup_cons in Hd as [Hd _]. rewrite elem_of_cons in Hd. tauto. }
    assert (forall x, x ∈ omap id qs ->
              x <> p /\ x <> a /\ (x < b)%N /\ x <> NULL) as Hptrs.
    { intros x Hx. destruct (Hqs x Hx) as [s' Hs'].
      destruct (Hlive _ _ Hs'). split_and!; try done; congruence. }
    apply NoDup_cons in Hd as [Hd1 Hd2]. apply NoDup_cons in Hd2 as [Hd2 Hd3].
    rewrite elem_of_cons in Hd1.
    apply Forall_cons in Hn as [_ Hn].
    assert (Z.of_nat (length strs) = Z.of_nat (length (slot <$> qs))) as Hk
      by (rewrite length_fmap; lia).
    rewrite Hk in Hp.
    destruct (decide (Z.of_nat (length strs) + 1 = 2 ^ 32)) as [Hwrap|Hwrap].
    { assert (uint (Z.of_nat (length (slot <$> qs)) + 1) = 0) as Hu
        by (by rewrite <- Hk, Hwrap).
      unfold_relay. heap_run.
      do 2 eexists. split; [reflexivity|]. by right. }
    destruct (om r) eqn:Ho1.
    { unfold_relay. heap_run. do 2 eexists. split; [reflexivity|]. by left. }
    destruct (ip r) eqn:Hip, (om (S r)) eqn:Ho2; unfold_relay; heap_run.
    + replace (Z.to_nat (Z.of_nat (length (slot <$> qs)) + 1 - 1))
        with (length (slot <$> qs)) by lia.
      rewrite (fill_slot qs None NULL) by done.
      do 2 eexists. split; [reflexivity|]. simpl. exists a.
      split_and!; try done; try lia.
      * close_sane Hfresh.
      * constructor.
        -- heap_run. do 3 f_equal. rewrite length_app, length_fmap. simpl. lia.
        -- rewrite length_app. simpl. lia.
        -- rewrite decide_False by (unfold NULL in *; lia). by heap_run.
        -- close_strings Hs Hlive.
        -- rewrite omap_app. simpl. rewrite ?app_nil_r.
           repeat (apply NoDup_cons; split).
           ++ rewrite elem_of_cons, ?elem_of_app, ?list_elem_of_singleton.
              intros Hx. split_ors; try tauto; lia.
           ++ rewrite ?elem_of_app, ?list_elem_of_singleton.
              intros Hx. split_ors;
                first [tauto | lia | apply Hptrs in Hx; lia].
           ++ first
                [ done
                | apply NoDup_app; split_and!; [done| |apply NoDup_singleton];
                  intros x Hx; rewrite list_elem_of_singleton;
                  apply Hptrs in Hx; lia ].
        -- apply Forall_cons. split; [done|].
           rewrite omap_app. apply Forall_app. split; [done|].
           simpl; repeat constructor; unfold NULL; lia.
      * rewrite omap_app. simpl. rewrite ?app_nil_r. close_without Hw Hfresh.
      * by rewrite <- !app_assoc.
    + replace (Z.to_nat (Z.of_nat (length (slot <$> qs)) + 1 - 1))
        with (length (slot <$> qs)) by lia.
      rewrite (fill_slot qs (Some (b + 1)%N) (b + 1)%N) by done.
      do 2 eexists. split; [reflexivity|]. simpl. exists a.
      split_and!; try done; try lia.
      * close_sane Hfresh.
      * constructor.
        -- heap_run. do 3 f_equal. rewrite length_app, length_fmap. simpl. lia.
        -- rewrite length_app. simpl. lia.
        -- rewrite decide_False by (unfold NULL in *; lia). by heap_run.
        -- close_strings Hs Hlive.
        -- rewrite omap_app. simpl. rewrite ?app_nil_r.
           repeat (apply NoDup_cons; split).
           ++ rewrite elem_of_cons, ?elem_of_app, ?list_elem_of_singleton.
              intros Hx. split_ors; try tauto; lia.
           ++ rewrite ?elem_of_app, ?list_elem_of_singleton.
              intros Hx. split_ors;
                first [tauto | lia | apply Hptrs in Hx; lia].
           ++ first
                [ done
                | apply NoDup_app; split_and!; [done| |apply NoDup_singleton];
                  intros x Hx; rewrite list_elem_of_singleton;
                  apply Hptrs in Hx; lia ].
        -- apply Forall_cons. split; [done|].
           rewrite omap_app. apply Forall_app. split; [done|].
           simpl; repeat constructor; unfold NULL; lia.
      * rewrite omap_app. simpl. rewrite ?app_nil_r. close_without Hw Hfresh.
      * by rewrite <- !app_assoc.
    + replace (Z.to_nat (Z.of_nat (length (slot <$> qs)) + 1 - 1))
        with (length (slot <$> qs)) by lia.
      rewrite (fill_slot qs None NULL) by done.
      do 2 eexists. split; [reflexivity|]. simpl. exists b.
      split_and!; try done; try lia.
      * close_sane Hfresh.
      * constructor.
        -- heap_run. do 3 f_equal. rewrite length_app, length_fmap. simpl. lia.
        -- rewrite length_app. simpl. lia.
        -- rewrite decide_False by (unfold NULL in *; lia). by heap_run.
        -- close_strings Hs Hlive.
        -- rewrite omap_app. simpl. rewrite ?app_nil_r.
           repeat (apply NoDup_cons; split).
           ++ rewrite elem_of_cons, ?elem_of_app, ?list_elem_of_singleton.
              intros Hx. split_ors; try tauto; lia.
           ++ rewrite ?elem_of_app, ?list_elem_of_singleton.
              intros Hx. split_ors;
                first [tauto | lia | apply Hptrs in Hx; lia].
           ++ first
                [ done
                | apply NoDup_app; split_and!; [done| |apply NoDup_singleton];
                  intros x Hx; rewrite list_elem_of_singleton;
                  apply Hptrs in Hx; lia ].
        -- apply Forall_cons. split; [done|].
           rewrite omap_app. apply Forall_app. split; [done|].
           simpl; repeat constructor; unfold NULL; lia.
      * rewrite omap_app. simpl. rewrite ?app_nil_r. close_without Hw Hfresh.
      * by rewrite <- !app_assoc.
    + replace (Z.to_nat (Z.of_nat (length (slot <$> qs)) + 1 - 1))
        with (length (slot <$> qs)) by lia.
      rewrite (fill_slot qs (Some (b + 1)%N) (b + 1)%N) by done.
      do 2 eexists. split; [reflexivity|]. simpl. exists b.
      split_and!; try done; try lia.
      * close_sane Hfresh.
      * constructor.
        -- heap_run. do 3 f_equal. rewrite length_app, length_fmap. simpl. lia.
        -- rewrite length_app. simpl. lia.
        -- rewrite decide_False by (unfold NULL in *; lia). by heap_run.
        -- close_strings Hs Hlive.
        -- rewrite omap_app. simpl. rewrite ?app_nil_r.
           repeat (apply NoDup_cons; split).
           ++ rewrite elem_of_cons, ?elem_of_app, ?list_elem_of_singleton.
              intros Hx. split_ors; try tauto; lia.
           ++ rewrite ?elem_of_app, ?list_elem_of_singleton.
              intros Hx. split_ors;
                first [tauto | lia | apply Hptrs in Hx; lia].
           ++ first
                [ done
                | apply NoDup_app; split_and!; [done| |apply NoDup_singleton];
                  intros x Hx; rewrite list_elem_of_singleton;
                  apply Hptrs in Hx; lia ].
        -- apply Forall_cons. split; [done|].
           rewrite omap_app. apply Forall_app. split; [done|].
           simpl; repeat constructor; unfold NULL; lia.
      * rewrite omap_app. simpl. rewrite ?app_nil_r. close_without Hw Hfresh.
      * by rewrite <- !app_assoc.
Qed.

Lemma granted_step w w' n :
  granted w (2 + n) ->
  oom w' = oom w -> requests w' = S (S (requests w)) ->
  granted w' n.
Proof.
  intros H Ho Hr i Hi. rewrite Ho, Hr.
  rewrite <- (H (2 + i)%nat) by lia. f_equal. lia.
Qed.

Lemma capture_spec rest : forall w p a qs strs h0,
  sane w ->
  buffer (heap w) p a qs strs ->
  without (p :: a :: omap id qs) (heap w) h0 ->
  exists o w',
    capture p rest w = (o, w') /\
    match o with
    | Done _ =>
        exists a' qs' l,
          sane w' /\
          buffer (heap w') p a' (qs ++ qs') (strs ++ rest) /\
          without (p :: a' :: omap id (qs ++ qs')) (heap w') h0 /\
          Forall (fun q => (brk w <= q)%N) (omap id qs') /\
          (brk w <= brk w')%N /\
          (rest = [] -> a' = a) /\
          (granted w (2 * length rest) -> Forall is_Some qs') /\
          requests w' = (requests w + 2 * length rest)%nat /\
          same_process w w' /\
          relay__rubyThread w' = relay__rubyThread w /\
          log w' = log w ++ l /\
          reads_source rest l
    | Aborted =>
        ~ granted w (2 * length rest) \/
        2 ^ 32 <= Z.of_nat (length strs + length rest)
    | _ => False
    end.
Proof.
  induction rest as [|s rest IH]; intros w p a qs strs h0 Hsane Hbuf Hw.
  - exists (Done tt), (with_log (log w ++ [Cvpi_scan None]) w).
    split; [done|]. exists a, [], [Cvpi_scan None].
    rewrite !app_nil_r. simpl.
    split_and!; try done; try lia.
    unfold reads_source. simpl. split_and!; try done. by repeat constructor.
  - simpl. unfold mbind at 1. simpl. unfold mbind at 1.
    set (w0 := with_log (log w ++ [Cvpi_scan (Some s)]) w).
    destruct (capture_one_spec w0 p a qs strs s h0) as (o1 & w1 & E1 & H1);
      try done.
    rewrite E1. destruct o1 as [[]| | |]; try done.
    + destruct H1 as (a1 & Ho1 & Hsane1 & Hbuf1 & Hw1 & Hbrk1 & Hr1
                      & (Hoom1 & Hip1 & Hst1 & Henv1) & Hth1 & Hlog1).
      simpl in Ho1, Hbrk1, Hr1, Hoom1, Hip1, Hst1, Henv1, Hth1, Hlog1.
      set (q := if oom w0 (S (requests w0)) then None else Some (brk w0 + 1)%N) in *.
      destruct (IH w1 p a1 (qs ++ [q]) (strs ++ [s]) h0) as (o2 & w2 & E2 & H2);
        try done.
      rewrite E2. exists o2, w2. split; [done|].
      destruct o2 as [[]| | |]; try done.
      * destruct H2 as (a' & qs' & l & Hsane' & Hbuf' & Hw' & Hfr & Hbrk' & _ & Hgr
                        & Hr' & (Ho' & Hip' & Hst' & Henv') & Hth' & Hlog' & Hrs).
        exists a', (q :: qs'),
          ([Cvpi_scan (Some s)] ++
           [if decide (a = NULL) then Cmalloc a1 else Crealloc a a1;
            Cvpi_get_value s; Cstrdup s (slot q)] ++ l).
        rewrite <- (app_assoc qs) in Hbuf', Hw'.
        rewrite <- (app_assoc strs) in Hbuf'. simpl in *.
        split_and!; try done; try lia.
        -- assert (Forall (fun x => (brk w <= x)%N) (omap id qs')) as Hfr'.
           { eapply Forall_impl; [exact Hfr|]. simpl. intros; lia. }
           subst q. simpl. destruct (oom w (S (requests w))); simpl; [done|].
           constructor; [lia|done].
        -- intros Hg. constructor.
           ++ subst q. simpl. rewrite <- (Nat.add_1_r (requests w)).
              rewrite Hg by lia. done.
           ++ apply Hgr. eapply granted_step; [|done..].
              intros i Hi. apply Hg. lia.
        -- unfold same_process. split_and!; congruence.
        -- congruence.
        -- rewrite Hlog', Hlog1. by rewrite <- !app_assoc.
        -- destruct Hrs as (R1 & R2 & R3 & R4 & R5 & R6).
           unfold reads_source.
           destruct (decide (a = NULL)); simpl in *;
             rewrite ?R1, ?R2, ?R3, ?R4, ?R5;
             split_and!; try done; try (f_equal; assumption);
             repeat (apply Forall_cons; split; [done|]); assumption.
      * destruct H2 as [Hg|Hbound].
        -- left. intros Hg'. apply Hg. eapply granted_step; [|done..].
           intros i Hi. apply Hg'. simpl. lia.
        -- right. rewrite length_app in Hbound. simpl in *. lia.
    + eexists _, _. split; [done|]. simpl in *. destruct H1 as [Ho|Hwrap].
      * left. intros Hg. specialize (Hg 0%nat ltac:(simpl; lia)).
        rewrite Nat.add_0_r in Hg. congruence.
      * right. lia.
Qed.

Lemma relay_ruby_run_spec w :
  sane w ->
  exists o w1,
    relay_ruby_run w = (o, w1) /\
    match o with
    | Done _ =>
        exists p a qs l,
          sane w1 /\
          relay__rubyThread w1 = Some p /\
          buffer (heap w1) p a qs (source (site w)) /\
          without (p :: a :: omap id qs) (heap w1) (heap w) /\
          Forall (fun q => (brk w <= q)%N) (p :: omap id qs) /\
          (source (site w) = [] -> a = NULL) /\
          (granted w (1 + 2 * length (source (site w))) -> Forall is_Some qs) /\
          same_process w w1 /\
          log w1 = log w ++ l ++ [Cpthread_create p] /\
          launch_log (site w) l
    | Exited st =>
        st = EXIT_FAILURE /\ oom w (requests w) = true
    | Aborted =>
        ~ granted w (1 + 2 * length (source (site w))) \/
        2 ^ 32 <= Z.of_nat (length (source (site w)))
    | Fault => False
    end.
Proof.
  intros Hsane.
  destruct Hsane as [Hb Hfresh].
  destruct w as [h b om ip r st env th lg]; simpl in *.
  destruct (om r) eqn:Ho0.
  { unfold relay_ruby_run. unfold_api.
    unfold malloc_options, malloc, request, mbind, mret, emit, exit.
    simpl. rewrite Ho0. simpl. eexists _, _. split; [reflexivity|]. done. }
  assert (h !! b = None) as Hq1 by (apply Hfresh; right; lia).
  set (hi := <[b := Options (Some NULL) (Some 0)]>
               (<[b := Options (Some NULL) None]>
                  (<[b := Options None None]> h))).
  assert (buffer hi b NULL [] []) as Hbuf.
  { constructor; simpl; try done.
    - subst hi. by heap_run.
    - apply NoDup_cons. split; [|apply NoDup_singleton].
      rewrite list_elem_of_singleton. unfold NULL. lia.
    - repeat constructor. unfold NULL. lia. }
  assert (without [b; NULL] hi h) as Hw.
  { intros x. subst hi. lookup_all.
    destruct (decide (x ∈ [b; NULL])) as [Hx|Hx];
      rewrite ?elem_of_cons, ?elem_of_nil in Hx.
    - destruct Hx as [-> | [-> | []]]; [done|]. apply Hfresh. by left.
    - repeat case_decide; subst; try done; intuition congruence. }
  assert (forall lg', sane (World hi (b + 1) om ip (S r) st env th lg')) as Hsane'.
  { intros lg'. split; simpl; [lia|]. intros x Hx. subst hi. lookup_all.
    repeat case_decide; subst; try (exfalso; unfold NULL in *; destruct Hx; lia).
    apply Hfresh. destruct Hx; [by left | right; lia]. }
  unfold relay_ruby_run. unfold_api.
  unfold malloc_options, malloc, request, mbind, mret, emit. simpl.
  rewrite Ho0. simpl.
  rewrite decide_True by (unfold NULL; lia).
  unfold store_mArgs, store_mCount, vpi_handle_SysTfCall, vpi_iterate_Argument,
    pthread_create_ruby_run_handshake. heap_run.
  fold hi.
  destruct st as [| |args]; simpl in *.
  - eexists _, _. split; [reflexivity|]. exists b, NULL, [], [Cmalloc b; Cvpi_handle false]. simpl.
    split_and!; try done; try apply Hsane'.
    + repeat constructor. lia.
    + by rewrite <- !app_assoc.
    + unfold launch_log. simpl. split_and!; try done. by repeat constructor.
  - eexists _, _. split; [reflexivity|]. exists b, NULL, [], [Cmalloc b; Cvpi_handle true; Cvpi_iterate false]. simpl.
    split_and!; try done; try apply Hsane'.
    + repeat constructor. lia.
    + by rewrite <- !app_assoc.
    + unfold launch_log. simpl. split_and!; try done. by repeat constructor.
  - match goal with |- context [capture b args ?w0] => set (wi := w0) end.
    destruct (capture_spec args wi b NULL [] [] h) as (o & w' & E & H);
      [apply Hsane' | exact Hbuf | exact Hw |].
    rewrite E. destruct o as [[]| | |]; try done.
    + destruct H as (a' & qs' & l & Hsane1 & Hbuf1 & Hw1 & Hfr & Hbrk' & Hnil & Hgr
                     & Hr' & (Ho' & Hip' & Hst' & Henv') & Hth' & Hlog' & Hrs).
      eexists _, _. split; [reflexivity|].
      exists b, a', qs', ([Cmalloc b; Cvpi_handle true; Cvpi_iterate true] ++ l).
      simpl in *. split_and!; try done.
      * constructor; [lia|]. eapply Forall_impl; [exact Hfr|].
        subst wi. simpl. intros; lia.
      * intros Hg. apply Hgr. intros i Hi. subst wi. simpl.
        rewrite <- (Hg (1 + i)%nat) by (simpl; lia). simpl. f_equal. lia.
      * rewrite Hlog'. subst wi. simpl. by rewrite <- !app_assoc.
      * destruct Hrs as (R1 & R2 & R3 & R4 & R5 & R6).
        unfold launch_log. simpl in *.
        split_and!; try done.
        repeat (apply Forall_cons; split; [done|]). assumption.
    + eexists _, _. split; [reflexivity|]. simpl in *. destruct H as [Hg|Hbound].
      * left. intros Hg'. apply Hg. intros i Hi. subst wi. simpl.
        rewrite <- (Hg' (1 + i)%nat) by (simpl; lia). simpl. f_equal. lia.
      * right. lia.
Qed.

(** *** The handshake *)

Lemma read_args_from h a rest : forall pre strs,
  h !! NULL = None ->
  h !! a = Some (Args (Some <$> (slot <$> (pre ++ rest)))) ->
  Forall2 (fun q s => match q with
                      | Some x => h !! x = Some (Str s)
                      | None => True
                      end) rest strs ->
  map (read_arg h a) (seq (length pre) (length strs)) = delivered rest strs.
Proof.
  induction rest as [|q rest IH]; intros pre strs Hnull Ha Hs;
    inversion Hs as [|? s ? strs' Hq Hs']; subst; simpl; [done|].
  unfold delivered. simpl. f_equal.
  - unfold read_arg. rewrite Ha, !list_lookup_fmap, list_lookup_middle by done.
    simpl. destruct q as [x|]; simpl; [by rewrite Hq | by rewrite Hnull].
  - specialize (IH (pre ++ [q]) strs').
    rewrite length_app in IH. simpl in IH.
    replace (length pre + 1)%nat with (S (length pre)) in IH by lia.
    apply IH; [done| |done]. by rewrite <- app_assoc.
Qed.

Lemma read_args_spec h p a qs strs :
  h !! NULL = None ->
  buffer h p a qs strs ->
  map (read_arg h a) (seq 0 (length strs)) = delivered qs strs.
Proof.
  intros Hnull [Hp Hc Ha Hs Hd Hn]. destruct (decide (a = NULL)).
  - subst qs. by inversion Hs.
  - by apply (read_args_from h a qs [] strs).
Qed.

Lemma delivered_all (ptrs : list N) strs :
  length ptrs = length strs -> delivered (Some <$> ptrs) strs = Some <$> strs.
Proof.
  revert strs. induction ptrs as [|q ptrs IH]; intros [|s strs] H;
    simplify_eq/=; [done|].
  unfold delivered in *. simpl. f_equal. by apply IH.
Qed.

Lemma free_each_spec rest : forall pre w a,
  heap w !! NULL = None ->
  heap w !! a = Some (Args (Some <$> (slot <$> (pre ++ rest)))) ->
  a ∉ omap id rest ->
  NoDup (omap id rest) ->
  Forall (fun x => x <> NULL /\ is_Some (heap w !! x)) (omap id rest) ->
  Z.of_nat (length (pre ++ rest)) < 2 ^ 32 ->
  free_each a (Z.of_nat (length pre)) (length rest) w =
  (Done tt,
   with_log (log w ++ (Cfree <$> (slot <$> rest)))
     (with_heap (release (omap id rest) (heap w)) w)).
Proof.
  induction rest as [|q rest IH]; intros pre w a Hnull Ha Hna Hnd Hlive Hk.
  - destruct w. simpl. by rewrite app_nil_r.
  - rewrite length_app in Hk. simpl in Hk.
    simpl. unfold mbind, load_slot. simpl.
    rewrite Ha. rewrite decide_True by lia.
    rewrite Nat2Z.id, !list_lookup_fmap, list_lookup_middle by done. simpl.
    rewrite uint_small by lia.
    replace (Z.of_nat (length pre) + 1) with (Z.of_nat (length (pre ++ [q])))
      by (rewrite length_app; simpl; lia).
    destruct q as [x|]; simpl in *.
    + apply not_elem_of_cons in Hna as [Hax Hna].
      apply NoDup_cons in Hnd as [Hx Hnd].
      apply Forall_cons in Hlive as [[Hx0 [bx Hbx]] Hlive].
      unfold free, emit. simpl.
      rewrite decide_False by done. rewrite Hbx.
      rewrite IH.
      * destruct w. simpl. by rewrite <- app_assoc.
      * simpl. by rewrite lookup_delete_ne by done.
      * simpl. rewrite lookup_delete_ne by done. by rewrite <- app_assoc.
      * done.
      * done.
      * simpl. eapply Forall_impl.
        -- apply Forall_and. split; [exact Hlive|].
           apply Forall_forall. intros y Hy. exact Hy.
        -- simpl. intros y [[Hy0 Hy] Hin]. split; [done|].
           rewrite lookup_delete_ne; [done|]. intros ->. done.
      * rewrite <- app_assoc. simpl. rewrite length_app. simpl. lia.
    + unfold free, emit. simpl.
      rewrite IH.
      * destruct w. simpl. by rewrite <- app_assoc.
      * done.
      * simpl. by rewrite <- app_assoc.
      * done.
      * done.
      * done.
      * rewrite <- app_assoc. simpl. rewrite length_app. simpl. lia.
Qed.

Lemma ruby_run_handshake_spec w p a qs strs h0 :
  heap w !! NULL = None ->
  buffer (heap w) p a qs strs ->
  without (p :: a :: omap id qs) (heap w) h0 ->
  exists w',
    ruby_run_handshake p w = (Done NULL, w') /\
    heap w' = h0 /\
    log w' = log w ++
      [Cruby_init; Cruby_init_loadpath; Cswig_init;
       Cruby_options (Z.of_nat (length strs)) a (delivered qs strs)] ++
      (Cfree <$> (slot <$> qs)) ++
      [Cfree a; Cfree p; Cruby_run; Cruby_finalize] /\
    same_process w w' /\
    relay__rubyThread w' = relay__rubyThread w.
Proof.
  intros Hnull Hbuf Hw.
  pose proof (read_args_spec _ _ _ _ _ Hnull Hbuf) as Hread.
  assert (forall x, x ∈ omap id qs -> exists s, heap w !! x = Some (Str s)) as Hqs
    by (intros; by eapply buffer_live).
  destruct Hbuf as [Hp Hk Ha Hs Hd Hn].
  pose proof (Forall2_length _ _ _ Hs) as Hlen.
  apply NoDup_cons in Hd as [Hd1 Hd2]. apply NoDup_cons in Hd2 as [Hd2 Hd3].
  rewrite elem_of_cons in Hd1.
  apply Forall_cons in Hn as [Hp0 Hn].
  unfold ruby_run_handshake. unfold_api.
  unfold mbind, emit, load_mArgs, load_mCount, ruby_options, mret. simpl.
  rewrite Hp. simpl. rewrite Hp. simpl. rewrite Nat2Z.id, Hread.
  set (w1 := with_log _ _).
  assert (free_each a 0 (length strs) w1 =
          (Done tt, with_log (log w1 ++ (Cfree <$> (slot <$> qs)))
                      (with_heap (release (omap id qs) (heap w1)) w1))) as ->.
  { destruct (decide (a = NULL)) as [->|Hane].
    - subst qs. inversion Hs; subst. simpl. destruct w.
      subst w1. simpl. by rewrite app_nil_r.
    - rewrite <- Hlen.
      apply (free_each_spec qs [] w1 a); try done.
      + rewrite Forall_forall. intros x Hx. split.
        * rewrite Forall_forall in Hn. by apply Hn.
        * destruct (Hqs x Hx) as [s' Hs']. subst w1. simpl. by rewrite Hs'.
      + simpl. lia. }
  unfold free. simpl.
  assert (release (omap id qs) (heap w) !! p = heap w !! p) as Hrp.
  { rewrite lookup_release. rewrite decide_False; [done|]. tauto. }
  destruct w as [h b om ip r st env th lg]. subst w1. simpl in *.
  destruct (decide (a = NULL)) as [->|Hane].
  - simpl. rewrite decide_False by done.
    rewrite Hrp, Hp. simpl.
    eexists. split; [reflexivity|]. simpl. split_and!; try done.
    + apply map_eq. intros x. rewrite Hw, lookup_delete, lookup_release.
      subst qs. simpl.
      destruct (decide (x ∈ [p; NULL])) as [Hx|Hx];
        rewrite ?elem_of_cons, ?elem_of_nil in Hx.
      * destruct Hx as [-> | [-> | []]]; repeat case_decide; try done;
          by rewrite ?Hnull.
      * repeat case_decide; subst; try done;
          try (exfalso; intuition congruence);
          exfalso; eapply not_elem_of_nil; eassumption.
    + subst qs. inversion Hs; subst. simpl. by rewrite <- !app_assoc.
  - simpl. rewrite lookup_release, decide_False by done. rewrite Ha. simpl.
    rewrite decide_False by done.
    rewrite lookup_delete_ne by intuition congruence. rewrite Hrp, Hp. simpl.
    eexists. split; [reflexivity|]. simpl. split_and!; try done.
    + apply map_eq. intros x. rewrite Hw, !lookup_delete, lookup_release.
      destruct (decide (x ∈ p :: a :: omap id qs)) as [Hx|Hx];
        rewrite ?elem_of_cons in Hx; repeat case_decide; subst;
        try done; intuition congruence.
    + rewrite <- !app_assoc. simpl. by rewrite <- ?app_assoc.
Qed.

(** *** The launch *)

Lemma fresh_not_live w q : sane w -> (brk w <= q)%N -> heap w !! q = None.
Proof. intros [_ H] Hq. apply H. by right. Qed.

Lemma all_copied (qs : list (option N)) :
  Forall is_Some qs -> qs = Some <$> omap id qs.
Proof.
  induction 1 as [|q qs [x ->] _ IH]; [done|]. simpl. f_equal. exact IH.
Qed.

Lemma sane_fresh om ip r st env th lg :
  sane (World ∅ 1 om ip r st env th lg).
Proof. split; simpl; [lia|]. intros x _. apply lookup_empty. Qed.

(** C3.  Whatever the call site, provided storage is granted and the
    arguments are fewer than 2^32: [relay_ruby_run] scans the arguments
    once each, in order, up to the end of the iterator, reads each value
    once, in order, and hands the new thread a buffer that counts them and
    holds, in blocks that were not live before and are pairwise distinct, a
    copy of each; [ruby_run_handshake] on that buffer returns, and the
    option parser is called once, with that count and those strings in
    that order.  With nothing to scan (no call handle, no iterator, or an
    empty one) the count is 0 and there is no array, and the handshake
    goes through the same code. *)
Theorem arguments_reach_the_parser w :
  sane w ->
  granted w (1 + 2 * length (source (site w))) ->
  Z.of_nat (length (source (site w))) < 2 ^ 32 ->
  exists w1 w2 p a ptrs l1 l2,
    relay_ruby_run w = (Done tt, w1) /\
    relay__rubyThread w1 = Some p /\
    log w1 = log w ++ l1 ++ [Cpthread_create p] /\
    omap scan_of l1 =
      match site w with
      | Arguments args => (Some <$> args) ++ [None]
      | _ => []
      end /\
    omap value_read l1 = source (site w) /\
    buffer (heap w1) p a (Some <$> ptrs) (source (site w)) /\
    Forall (fun q => heap w !! q = None) (p :: ptrs) /\
    NoDup (p :: ptrs) /\
    (source (site w) = [] ->
     heap w1 !! p = Some (Options (Some NULL) (Some 0))) /\
    ruby_run_handshake p w1 = (Done NULL, w2) /\
    log w2 = log w1 ++ l2 /\
    omap parsed l2 =
      [(Z.of_nat (length (source (site w))), Some <$> source (site w))].
Proof.
  intros Hsane Hg Hk.
  destruct (relay_ruby_run_spec w Hsane) as (o & w1 & E1 & H1).
  destruct o as [[]|st| |]; try done; cycle 1.
  { destruct H1 as [_ Ho]. specialize (Hg 0%nat ltac:(lia)).
    rewrite Nat.add_0_r in Hg. congruence. }
  { destruct H1; [done | lia]. }
  destruct H1 as (p & a & qs & l1 & Hsane1 & Hth & Hbuf & Hwo & Hfr & Hnil & Hall
                  & Hsame & Hlog1 & (S1 & S2 & S3 & S4 & S5 & S6)).
  specialize (Hall Hg). apply all_copied in Hall.
  set (ptrs := omap id qs) in *. rewrite Hall in Hbuf.
  assert (heap w1 !! NULL = None) as Hnull.
  { destruct Hsane1 as [_ H]. apply H. by left. }
  destruct (ruby_run_handshake_spec w1 p a (Some <$> ptrs) (source (site w)) (heap w))
    as (w2 & E2 & Hheap & Hlog2 & _ & _); try done.
  { by rewrite <- Hall. }
  exists w1, w2, p, a, ptrs, l1. eexists.
  split_and!; try done.
  - eapply Forall_impl; [exact Hfr|]. intros q Hq. by apply fresh_not_live.
  - destruct Hbuf as [_ _ _ _ Hd _]. rewrite <- Hall in Hd. fold ptrs in Hd.
    apply NoDup_cons in Hd as [Hd1 Hd2].
    apply NoDup_cons in Hd2 as [_ Hd2]. apply NoDup_cons. split; [|done].
    rewrite elem_of_cons in Hd1. tauto.
  - intros Hs. destruct Hbuf as [Hp _ _ _ _ _]. rewrite Hs in Hp.
    by rewrite (Hnil Hs) in Hp.
  - simpl. rewrite omap_app. simpl.
    assert (forall l : list N, omap parsed (Cfree <$> l) = []) as ->.
    { clear. induction l as [|q l IH]; [done|]. simpl. exact IH. }
    rewrite delivered_all; [done|].
    destruct Hbuf as [_ _ _ Hs _ _]. apply Forall2_length in Hs.
    by rewrite length_fmap in Hs.
Qed.

Lemma arguments_reach_the_parser_witness :
  exists w1 w2 p l2,
    relay_ruby_run scenario = (Done tt, w1) /\
    relay__rubyThread w1 = Some p /\
    ruby_run_handshake p w1 = (Done NULL, w2) /\
    log w2 = log w1 ++ l2 /\
    omap parsed l2 = [(3, [Some "a.rb"; Some "--seed"; Some "42"])].
Proof.
  destruct (arguments_reach_the_parser scenario)
    as (w1 & w2 & p & a & ptrs & l1 & l2 & E1 & Hth & _ & _ & _ & _ & _ & _
        & _ & E2 & Hlog & Hparsed).
  - apply sane_fresh.
  - intros i _. reflexivity.
  - reflexivity.
  - exists w1, w2, p, l2. repeat split; assumption.
Defined.

(** C5.  A launch cycle that runs to the end leaves the heap as it found
    it.  The new thread is created once, with the options structure; it
    calls the option parser on the buffer, then [free] on the pointer of
    each argument in order, then on the array, then on the options
    structure, and after that only [ruby_run] and [ruby_finalize], which
    take no pointer.  The blocks released are pairwise distinct, they are
    the blocks the capture had added to the heap, and nothing was released
    before the parser was called. *)
Theorem buffer_released_once w r w2 :
  sane w ->
  launch_cycle w = (Done r, w2) ->
  exists w1 p a qs l1,
    relay_ruby_run w = (Done tt, w1) /\
    without (p :: a :: omap id qs) (heap w1) (heap w) /\
    Forall (fun x => is_Some (heap w1 !! x)) (p :: omap id qs) /\
    (a <> NULL -> is_Some (heap w1 !! a)) /\
    length qs = length (source (site w)) /\
    heap w2 = heap w /\
    log w2 =
      log w ++ l1 ++ [Cpthread_create p] ++
      [Cruby_init; Cruby_init_loadpath; Cswig_init;
       Cruby_options (Z.of_nat (length (source (site w)))) a
                     (delivered qs (source (site w)))] ++
      (Cfree <$> (slot <$> qs)) ++ [Cfree a; Cfree p] ++
      [Cruby_run; Cruby_finalize] /\
    omap freed l1 = [] /\
    omap spawned l1 = [] /\
    NoDup (omap id qs ++ [a; p]).
Proof.
  intros Hsane Hdone.
  destruct (relay_ruby_run_spec w Hsane) as (o & w1 & E1 & H1).
  unfold launch_cycle, mbind in Hdone. rewrite E1 in Hdone.
  destruct o as [[]|st| |]; try done.
  destruct H1 as (p & a & qs & l1 & Hsane1 & Hth & Hbuf & Hwo & Hfr & Hnil & Hall
                  & Hsame & Hlog1 & (S1 & S2 & S3 & S4 & S5 & S6)).
  rewrite Hth in Hdone.
  assert (heap w1 !! NULL = None) as Hnull.
  { destruct Hsane1 as [_ H]. apply H. by left. }
  destruct (ruby_run_handshake_spec w1 p a qs (source (site w)) (heap w))
    as (w2' & E2 & Hheap & Hlog2 & _ & _); try done.
  rewrite E2 in Hdone. injection Hdone as <- <-.
  exists w1, p, a, qs, l1.
  split_and!; try done.
  - apply Forall_cons. split; [destruct Hbuf as [Hp _ _ _ _ _]; by eexists|].
    apply Forall_forall. intros x Hx.
    destruct (buffer_live _ _ _ _ _ x Hbuf Hx) as [s' Hs']. by eexists.
  - intros Hane. destruct Hbuf as [_ _ Ha _ _ _].
    rewrite decide_False in Ha by done. by eexists.
  - destruct Hbuf as [_ _ _ Hs _ _]. by apply Forall2_length in Hs.
  - rewrite Hlog2, Hlog1. by rewrite <- !app_assoc.
  - destruct Hbuf as [_ _ _ _ Hd _].
    apply NoDup_cons in Hd as [Hd1 Hd2]. apply NoDup_cons in Hd2 as [Hd2 Hd3].
    rewrite elem_of_cons in Hd1.
    apply NoDup_app. split_and!; [done| |].
    + intros x Hx. rewrite !elem_of_cons, elem_of_nil.
      intros [-> | [-> | []]]; tauto.
    + apply NoDup_cons. split; [|apply NoDup_singleton].
      rewrite list_elem_of_singleton. intros ->. tauto.
Qed.

Lemma buffer_released_once_witness :
  exists w2, launch_cycle scenario = (Done NULL, w2) /\ heap w2 = heap scenario.
Proof.
  assert (launch_cycle scenario = (Done NULL, (launch_cycle scenario).2)) as E
    by (vm_compute; reflexivity).
  destruct (buffer_released_once scenario NULL _ (sane_fresh _ _ _ _ _ _ _) E)
    as (w1 & p & a & qs & l1 & _ & _ & _ & _ & _ & Hheap & _).
  eexists. split; [exact E | exact Hheap].
Defined.
(** C4.  At [$ruby_init ("a.rb")]: when the options structure cannot be
    had, the message is printed and the process exits with
    [EXIT_FAILURE]; when the array cannot be had, the assertion fails and
    the process aborts; but when the copy of the string cannot be had,
    [strdup]'s [NULL] is stored in the array, nothing is reported, the
    thread is created and the option parser is handed an argument with no
    string behind it. *)
Theorem failed_copy_goes_unreported :
  ((relay_ruby_run (starved 0)).1 = Exited EXIT_FAILURE /\
   log (relay_ruby_run (starved 0)).2 =
     [Cmalloc NULL;
      Ccommon_printf
        "error: unable to allocate memory for Ruby's command-line arguments.";
      Cexit EXIT_FAILURE]) /\
  ((relay_ruby_run (starved 1)).1 = Aborted /\
   log (relay_ruby_run (starved 1)).2 =
     [Cmalloc 1; Cvpi_handle true; Cvpi_iterate true;
      Cvpi_scan (Some "a.rb"); Cmalloc NULL; Cassert_fail]) /\
  ((launch_cycle (starved 2)).1 = Done NULL /\
   log (launch_cycle (starved 2)).2 =
     [Cmalloc 1; Cvpi_handle true; Cvpi_iterate true;
      Cvpi_scan (Some "a.rb"); Cmalloc 2; Cvpi_get_value "a.rb";
      Cstrdup "a.rb" NULL; Cvpi_scan None; Cpthread_create 1; Cruby_init;
      Cruby_init_loadpath; Cswig_init; Cruby_options 1 2 [None];
      Cfree NULL; Cfree 2; Cfree 1; Cruby_run; Cruby_finalize] /\
   Forall (fun c => is_failure c = false) (log (launch_cycle (starved 2)).2)).
Proof.
  split_and!; try (vm_compute; reflexivity).
  apply Forall_forall. intros c Hc.
  assert (log (launch_cycle (starved 2)).2 =
     [Cmalloc 1; Cvpi_handle true; Cvpi_iterate true;
      Cvpi_scan (Some "a.rb"); Cmalloc 2; Cvpi_get_value "a.rb";
      Cstrdup "a.rb" NULL; Cvpi_scan None; Cpthread_create 1; Cruby_init;
      Cruby_init_loadpath; Cswig_init; Cruby_options 1 2 [None];
      Cfree NULL; Cfree 2; Cfree 1; Cruby_run; Cruby_finalize]) as E
    by (vm_compute; reflexivity).
  rewrite E in Hc. clear E.
  repeat (apply elem_of_cons in Hc as [->|Hc]; [reflexivity|]).
  by apply elem_of_nil in Hc.
Qed.

(** C7.  Whatever it is given, [ruby_run_handshake] calls [swig_init]
    before it calls the option parser or runs the program; and whatever
    the environment, [main_init] binds [relay_verilog] and
    [relay_ruby_reason] before it loads the file or runs it. *)
Theorem entry_points_installed_first :
  (forall p w, exists l,
      log (ruby_run_handshake p w).2 = log w ++ l /\
      installed_first [Cswig_init] l) /\
  (forall w, exists l,
      log (main_init w).2 = log w ++ l /\
      installed_first
        [Crb_define_module_function "relay_verilog" Fmain_relay_verilog 0;
         Crb_define_module_function "relay_ruby_reason" Fmain_relay_ruby_reason 0]
        l).
Proof.
  split.
  - intros p w. unfold ruby_run_handshake. unfold_api.
    match goal with
    | |- context [mbind (load_mArgs ?q) ?k] => set (rest := mbind (load_mArgs q) k)
    end.
    assert (emits relay_call rest) as Hrest.
    { pose proof emits_free_each. subst rest. emits_seq. }
    unfold mbind at 1 2 3. unfold emit at 1 2 3. simpl.
    destruct (Hrest (with_log
                       (((log w ++ [Cruby_init]) ++ [Cruby_init_loadpath]) ++ [Cswig_init])
                       (with_log ((log w ++ [Cruby_init]) ++ [Cruby_init_loadpath])
                          (with_log (log w ++ [Cruby_init]) w))))
      as (l & El & _).
    exists ([Cruby_init; Cruby_init_loadpath; Cswig_init] ++ l).
    split.
    + rewrite El. simpl. by rewrite <- !app_assoc.
    + exists [Cruby_init; Cruby_init_loadpath; Cswig_init], l.
      split_and!; [done | by repeat constructor | by repeat constructor].
  - intros w. destruct (environ w !! "RUBYVPI_BOOTSTRAP") as [f|] eqn:E.
    + destruct (main_init_set w f E) as [_ ->]. eexists. split; [done|].
      exists [Cruby_init; Cruby_init_loadpath; CInit_vpi;
              Crb_define_module_function "relay_verilog" Fmain_relay_verilog 0;
              Crb_define_module_function "relay_ruby_reason" Fmain_relay_ruby_reason 0;
              Cgetenv "RUBYVPI_BOOTSTRAP"],
             [Cruby_script f; Crb_load_file f; Cruby_run; Cruby_finalize].
      split_and!; [done | by repeat constructor | by repeat constructor].
    + destruct (main_init_unset w E) as [_ ->]. eexists. split; [done|].
      eexists _, []. rewrite app_nil_r.
      split_and!; [done | by repeat constructor | by repeat constructor].
Qed.
Lemma relay_call_reads_nothing l :
  Forall relay_call l -> omap env_read l = [].
Proof.
  induction 1 as [|c l Hc _ IH]; [done|].
  destruct c; simpl in *; done.
Qed.

Lemma main_init_environ w env' :
  env' !! "RUBYVPI_BOOTSTRAP" = environ w !! "RUBYVPI_BOOTSTRAP" ->
  (main_init (with_environ env' w)).1 = (main_init w).1 /\
  log (main_init (with_environ env' w)).2 = log (main_init w).2.
Proof.
  intros H. destruct (environ w !! "RUBYVPI_BOOTSTRAP") as [f|] eqn:E.
  - destruct (main_init_set w f E) as [-> ->].
    destruct (main_init_set (with_environ env' w) f H) as [-> ->]. done.
  - destruct (main_init_unset w E) as [-> ->].
    destruct (main_init_unset (with_environ env' w) H) as [-> ->]. done.
Qed.

(** C8.  [main_init] asks the environment for RUBYVPI_BOOTSTRAP and for
    nothing else, and what it does depends on the environment through
    that variable alone: unset, a message is printed and the process
    exits with [EXIT_FAILURE] without loading or running anything; set,
    the file it names is loaded and run.  relay.c asks the environment
    for nothing. *)
Theorem bootstrap_variable_required w :
  match environ w !! "RUBYVPI_BOOTSTRAP" with
  | None =>
      (main_init w).1 = Exited EXIT_FAILURE /\
      exists msg,
        log (main_init w).2 =
          log w ++
          [Cruby_init; Cruby_init_loadpath; CInit_vpi;
           Crb_define_module_function "relay_verilog" Fmain_relay_verilog 0;
           Crb_define_module_function "relay_ruby_reason" Fmain_relay_ruby_reason 0;
           Cgetenv "RUBYVPI_BOOTSTRAP";
           Ccommon_printf msg; Cexit EXIT_FAILURE]
  | Some f =>
      (main_init w).1 = Done tt /\
      log (main_init w).2 =
        log w ++
        [Cruby_init; Cruby_init_loadpath; CInit_vpi;
         Crb_define_module_function "relay_verilog" Fmain_relay_verilog 0;
         Crb_define_module_function "relay_ruby_reason" Fmain_relay_ruby_reason 0;
         Cgetenv "RUBYVPI_BOOTSTRAP";
         Cruby_script f; Crb_load_file f; Cruby_run; Cruby_finalize]
  end /\
  (exists l, log (main_init w).2 = log w ++ l /\
             omap env_read l = ["RUBYVPI_BOOTSTRAP"]) /\
  (forall env',
      env' !! "RUBYVPI_BOOTSTRAP" = environ w !! "RUBYVPI_BOOTSTRAP" ->
      (main_init (with_environ env' w)).1 = (main_init w).1 /\
      log (main_init (with_environ env' w)).2 = log (main_init w).2) /\
  (exists l, log (relay_ruby_run w).2 = log w ++ l /\ omap env_read l = []) /\
  (forall p, exists l,
      log (ruby_run_handshake p w).2 = log w ++ l /\ omap env_read l = []).
Proof.
  split_and!.
  - destruct (environ w !! "RUBYVPI_BOOTSTRAP") as [f|] eqn:E.
    + by apply main_init_set.
    + destruct (main_init_unset w E) as [-> ->]. split; [done|]. by eexists.
  - destruct (environ w !! "RUBYVPI_BOOTSTRAP") as [f|] eqn:E.
    + destruct (main_init_set w f E) as [_ ->]. by eexists.
    + destruct (main_init_unset w E) as [_ ->]. by eexists.
  - apply main_init_environ.
  - destruct (emits_relay_ruby_run w) as (l & E & Hl).
    exists l. split; [done|]. by apply relay_call_reads_nothing.
  - intros p. destruct (emits_ruby_run_handshake p w) as (l & E & Hl).
    exists l. split; [done|]. by apply relay_call_reads_nothing.
Qed.

(** C10.  With RUBYVPI_BOOTSTRAP unset, whatever else the environment
    holds, [main_init] reads RUBYVPI_BOOTSTRAP, prints a message that
    names RUBY_VPI__RUBY_BENCH_FILE and not RUBYVPI_BOOTSTRAP, and exits
    with [EXIT_FAILURE]. *)
Theorem diagnostic_names_other_variable w :
  environ w !! "RUBYVPI_BOOTSTRAP" = None ->
  (main_init w).1 = Exited EXIT_FAILURE /\
  log (main_init w).2 =
    log w ++
    [Cruby_init; Cruby_init_loadpath; CInit_vpi;
     Crb_define_module_function "relay_verilog" Fmain_relay_verilog 0;
     Crb_define_module_function "relay_ruby_reason" Fmain_relay_ruby_reason 0;
     Cgetenv "RUBYVPI_BOOTSTRAP";
     Ccommon_printf
       "error: environment variable RUBY_VPI__RUBY_BENCH_FILE is uninitialized.";
     Cexit EXIT_FAILURE] /\
  mentions "RUBY_VPI__RUBY_BENCH_FILE"
    "error: environment variable RUBY_VPI__RUBY_BENCH_FILE is uninitialized."
    = true /\
  mentions "RUBYVPI_BOOTSTRAP"
    "error: environment variable RUBY_VPI__RUBY_BENCH_FILE is uninitialized."
    = false.
Proof.
  intros E. destruct (main_init_unset w E) as [H1 H2].
  split_and!; [exact H1 | exact H2 | reflexivity | reflexivity].
Qed.

Lemma diagnostic_names_other_variable_witness :
  environ misnamed !! "RUBY_VPI__RUBY_BENCH_FILE" = Some "bench.rb" /\
  (main_init misnamed).1 = Exited EXIT_FAILURE /\
  log (main_init misnamed).2 =
    log misnamed ++
    [Cruby_init; Cruby_init_loadpath; CInit_vpi;
     Crb_define_module_function "relay_verilog" Fmain_relay_verilog 0;
     Crb_define_module_function "relay_ruby_reason" Fmain_relay_ruby_reason 0;
     Cgetenv "RUBYVPI_BOOTSTRAP";
     Ccommon_printf
       "error: environment variable RUBY_VPI__RUBY_BENCH_FILE is uninitialized.";
     Cexit EXIT_FAILURE] /\
  mentions "RUBY_VPI__RUBY_BENCH_FILE"
    "error: environment variable RUBY_VPI__RUBY_BENCH_FILE is uninitialized."
    = true /\
  mentions "RUBYVPI_BOOTSTRAP"
    "error: environment variable RUBY_VPI__RUBY_BENCH_FILE is uninitialized."
    = false.
Proof.
  split; [vm_compute; reflexivity|].
  apply (diagnostic_names_other_variable misnamed).
  vm_compute. reflexivity.
Defined.

(** *** The launch and the allocator *)

Lemma copies_cons w w' first s rest :
  oom w' = oom w ->
  copies w first (s :: rest) =
  (if oom w first then None else Some s) :: copies w' (2 + first) rest.
Proof.
  intros Ho. unfold copies. simpl. rewrite Nat.add_0_r. f_equal.
  apply imap_ext. intros i x _. simpl. rewrite Ho.
  by replace (first + S (i + S (i + 0)))%nat with (S (S (first + (i + (i + 0)))))%nat by lia.
Qed.

Lemma capture_outcome rest : forall w p a qs strs h0,
  sane w ->
  buffer (heap w) p a qs strs ->
  without (p :: a :: omap id qs) (heap w) h0 ->
  exists o w',
    capture p rest w = (o, w') /\
    match o with
    | Done _ =>
        exists a' qs' l,
          sane w' /\
          buffer (heap w') p a' (qs ++ qs') (strs ++ rest) /\
          without (p :: a' :: omap id (qs ++ qs')) (heap w') h0 /\
          (forall i, (i < length rest)%nat ->
                     oom w (requests w + 2 * i) = false) /\
          delivered qs' rest = copies w (S (requests w)) rest /\
          requests w' = (requests w + 2 * length rest)%nat /\
          same_process w w' /\
          relay__rubyThread w' = relay__rubyThread w /\
          log w' = log w ++ l /\
          reads_source rest l
    | Aborted =>
        (exists i, (i < length rest)%nat /\
                   oom w (requests w + 2 * i) = true) \/
        2 ^ 32 <= Z.of_nat (length strs + length rest)
    | _ => False
    end.
Proof.
  induction rest as [|s rest IH]; intros w p a qs strs h0 Hsane Hbuf Hw.
  - exists (Done tt), (with_log (log w ++ [Cvpi_scan None]) w).
    split; [done|]. exists a, [], [Cvpi_scan None].
    rewrite !app_nil_r. simpl.
    split_and!; try done; try lia.
    unfold reads_source. simpl. split_and!; try done. by repeat constructor.
  - simpl. unfold mbind at 1. simpl. unfold mbind at 1.
    set (w0 := with_log (log w ++ [Cvpi_scan (Some s)]) w).
    destruct (capture_one_spec w0 p a qs strs s h0) as (o1 & w1 & E1 & H1);
      try done.
    rewrite E1. destruct o1 as [[]| | |]; try done.
    + destruct H1 as (a1 & Ho1 & Hsane1 & Hbuf1 & Hw1 & Hbrk1 & Hr1
                      & (Hoom1 & Hip1 & Hst1 & Henv1) & Hth1 & Hlog1).
      simpl in Ho1, Hbrk1, Hr1, Hoom1, Hip1, Hst1, Henv1, Hth1, Hlog1.
      set (q := if oom w0 (S (requests w0)) then None else Some (brk w0 + 1)%N) in *.
      destruct (IH w1 p a1 (qs ++ [q]) (strs ++ [s]) h0) as (o2 & w2 & E2 & H2);
        try done.
      rewrite E2. exists o2, w2. split; [done|].
      destruct o2 as [[]| | |]; try done.
      * destruct H2 as (a' & qs' & l & Hsane' & Hbuf' & Hw' & Hgr & Hdel
                        & Hr' & (Ho' & Hip' & Hst' & Henv') & Hth' & Hlog' & Hrs).
        exists a', (q :: qs'),
          ([Cvpi_scan (Some s)] ++
           [if decide (a = NULL) then Cmalloc a1 else Crealloc a a1;
            Cvpi_get_value s; Cstrdup s (slot q)] ++ l).
        rewrite <- (app_assoc qs) in Hbuf', Hw'.
        rewrite <- (app_assoc strs) in Hbuf'.
        split_and!; try done.
        -- intros [|i] Hi.
           ++ by rewrite Nat.add_0_r.
           ++ rewrite <- Hoom1, <- (Hgr i) by (simpl in Hi; lia).
              f_equal. lia.
        -- rewrite (copies_cons w w1) by done.
           replace (2 + S (requests w))%nat with (S (requests w1)) by lia.
           rewrite <- Hdel. unfold delivered. simpl. f_equal.
           subst q. simpl. by destruct (oom w (S (requests w))).
        -- rewrite Hr', Hr1. simpl. lia.
        -- unfold same_process. split_and!; congruence.
        -- congruence.
        -- rewrite Hlog', Hlog1. simpl. by rewrite <- !app_assoc.
        -- destruct Hrs as (R1 & R2 & R3 & R4 & R5 & R6).
           unfold reads_source.
           destruct (decide (a = NULL)); simpl in *;
             rewrite ?R1, ?R2, ?R3, ?R4, ?R5;
             split_and!; try done; try (f_equal; assumption);
             repeat (apply Forall_cons; split; [done|]); assumption.
      * destruct H2 as [(i & Hi & Hg)|Hbound].
        -- left. exists (S i). split; [simpl; lia|].
           rewrite <- Hoom1, <- Hg. f_equal. lia.
        -- right. rewrite length_app in Hbound. simpl in *. lia.
    + eexists _, _. split; [done|]. simpl in *. destruct H1 as [Ho|Hwrap].
      * left. exists 0%nat. split; [lia|]. by rewrite Nat.add_0_r.
      * right. lia.
Qed.
Lemma relay_ruby_run_outcome w :
  sane w ->
  exists o w1,
    relay_ruby_run w = (o, w1) /\
    match o with
    | Done _ =>
        exists p a qs l,
          sane w1 /\
          relay__rubyThread w1 = Some p /\
          buffer (heap w1) p a qs (source (site w)) /\
          without (p :: a :: omap id qs) (heap w1) (heap w) /\
          oom w (requests w) = false /\
          (forall i, (i < length (source (site w)))%nat ->
                     oom w (requests w + 1 + 2 * i) = false) /\
          delivered qs (source (site w)) =
            copies w (requests w + 2) (source (site w)) /\
          same_process w w1 /\
          log w1 = log w ++ l ++ [Cpthread_create p] /\
          launch_log (site w) l
    | Exited st =>
        st = EXIT_FAILURE /\ oom w (requests w) = true
    | Aborted =>
        oom w (requests w) = false /\
        ((exists i, (i < length (source (site w)))%nat /\
                    oom w (requests w + 1 + 2 * i) = true) \/
         2 ^ 32 <= Z.of_nat (length (source (site w))))
    | Fault => False
    end.
Proof.
  intros Hsane.
  destruct Hsane as [Hb Hfresh].
  destruct w as [h b om ip r st env th lg]; simpl in *.
  destruct (om r) eqn:Ho0.
  { unfold relay_ruby_run. unfold_api.
    unfold malloc_options, malloc, request, mbind, mret, emit, exit.
    simpl. rewrite Ho0. simpl. eexists _, _. split; [reflexivity|]. done. }
  assert (h !! b = None) as Hq1 by (apply Hfresh; right; lia).
  set (hi := <[b := Options (Some NULL) (Some 0)]>
               (<[b := Options (Some NULL) None]>
                  (<[b := Options None None]> h))).
  assert (buffer hi b NULL [] []) as Hbuf.
  { constructor; simpl; try done.
    - subst hi. by heap_run.
    - apply NoDup_cons. split; [|apply NoDup_singleton].
      rewrite list_elem_of_singleton. unfold NULL. lia.
    - repeat constructor. unfold NULL. lia. }
  assert (without [b; NULL] hi h) as Hw.
  { intros x. subst hi. lookup_all.
    destruct (decide (x ∈ [b; NULL])) as [Hx|Hx];
      rewrite ?elem_of_cons, ?elem_of_nil in Hx.
    - destruct Hx as [-> | [-> | []]]; [done|]. apply Hfresh. by left.
    - repeat case_decide; subst; try done; intuition congruence. }
  assert (forall lg', sane (World hi (b + 1) om ip (S r) st env th lg')) as Hsane'.
  { intros lg'. split; simpl; [lia|]. intros x Hx. subst hi. lookup_all.
    repeat case_decide; subst; try (exfalso; unfold NULL in *; destruct Hx; lia).
    apply Hfresh. destruct Hx; [by left | right; lia]. }
  unfold relay_ruby_run. unfold_api.
  unfold malloc_options, malloc, request, mbind, mret, emit. simpl.
  rewrite Ho0. simpl.
  rewrite decide_True by (unfold NULL; lia).
  unfold store_mArgs, store_mCount, vpi_handle_SysTfCall, vpi_iterate_Argument,
    pthread_create_ruby_run_handshake. heap_run.
  fold hi.
  destruct st as [| |args]; simpl in *.
  - eexists _, _. split; [reflexivity|].
    exists b, NULL, [], [Cmalloc b; Cvpi_handle false]. simpl.
    split_and!; try done; try apply Hsane'.
    + intros; lia.
    + by rewrite <- !app_assoc.
    + unfold launch_log. simpl. split_and!; try done. by repeat constructor.
  - eexists _, _. split; [reflexivity|].
    exists b, NULL, [], [Cmalloc b; Cvpi_handle true; Cvpi_iterate false]. simpl.
    split_and!; try done; try apply Hsane'.
    + intros; lia.
    + by rewrite <- !app_assoc.
    + unfold launch_log. simpl. split_and!; try done. by repeat constructor.
  - match goal with |- context [capture b args ?w0] => set (wi := w0) end.
    destruct (capture_outcome args wi b NULL [] [] h) as (o & w' & E & H);
      [apply Hsane' | exact Hbuf | exact Hw |].
    rewrite E. destruct o as [[]| | |]; try done.
    + destruct H as (a' & qs' & l & Hsane1 & Hbuf1 & Hw1 & Hgr & Hdel
                     & Hr' & (Ho' & Hip' & Hst' & Henv') & Hth' & Hlog' & Hrs).
      eexists _, _. split; [reflexivity|].
      exists b, a', qs', ([Cmalloc b; Cvpi_handle true; Cvpi_iterate true] ++ l).
      simpl in *. split_and!; try done.
      * intros i Hi. rewrite <- (Hgr i Hi). subst wi. simpl. f_equal. lia.
      * rewrite Hdel. subst wi. simpl. unfold copies. simpl.
        apply imap_ext. intros i x _. simpl.
        by replace (r + 2 + (i + (i + 0)))%nat
          with (S (S (r + (i + (i + 0)))))%nat by lia.
      * rewrite Hlog'. subst wi. simpl. by rewrite <- !app_assoc.
      * destruct Hrs as (R1 & R2 & R3 & R4 & R5 & R6).
        unfold launch_log. simpl in *.
        split_and!; try done.
        repeat (apply Forall_cons; split; [done|]). assumption.
    + eexists _, _. split; [reflexivity|]. simpl in *. split; [done|].
      destruct H as [(i & Hi & Hg)|Hbound].
      * left. exists i. split; [done|]. rewrite <- Hg. subst wi. simpl.
        f_equal. lia.
      * right. lia.
Qed.
(** *** What the allocator decides *)

(** From a sane state, with [n] arguments at the call site and [r]
    requests made so far, [relay_ruby_run] ends in one of three ways, and
    the allocator says which: it exits with [EXIT_FAILURE] exactly when
    request [r], the options structure, fails; it returns exactly when
    that request and the [n] requests [r + 1 + 2 i] for the array are
    granted (and the count stays below 2^32); it aborts on its assertion
    in the remaining cases.  The requests [r + 2 + 2 i], the copies of
    the arguments, have no say; and it never touches storage that is not
    live. *)
Theorem launch_follows_allocator w :
  sane w ->
  ((relay_ruby_run w).1 = Exited EXIT_FAILURE <->
     oom w (requests w) = true) /\
  ((relay_ruby_run w).1 = Done tt <->
     oom w (requests w) = false /\
     (forall i, (i < length (source (site w)))%nat ->
                oom w (requests w + 1 + 2 * i) = false) /\
     Z.of_nat (length (source (site w))) < 2 ^ 32) /\
  ((relay_ruby_run w).1 = Aborted <->
     oom w (requests w) = false /\
     ((exists i, (i < length (source (site w)))%nat /\
                 oom w (requests w + 1 + 2 * i) = true) \/
      2 ^ 32 <= Z.of_nat (length (source (site w))))) /\
  (forall st, (relay_ruby_run w).1 = Exited st -> st = EXIT_FAILURE) /\
  (relay_ruby_run w).1 <> Fault.
Proof.
  intros Hsane.
  destruct (relay_ruby_run_outcome w Hsane) as (o & w1 & E & H).
  rewrite E. simpl. destruct o as [[]|st| |]; try done.
  - destruct H as (p & a & qs & l & _ & _ & Hbuf & _ & Ho & Hgr & _).
    destruct Hbuf as [_ Hk _ _ _ _].
    split_and!; try done.
    + split; [done | congruence].
    + split; [done|].
      intros (_ & [(i & Hi & Hf)|Hbound]); [|lia].
      pose proof (Hgr i Hi) as Hg. simpl in *. congruence.
  - destruct H as [-> Ho].
    split_and!; try done.
    + split; [done | intros (Ho' & _); congruence].
    + split; [done | intros (Ho' & _); congruence].
    + by intros st [= <-].
  - destruct H as (Ho & Hfail).
    split_and!; try done.
    + split; [done | congruence].
    + split; [done|].
      intros (_ & Hgr & Hk). destruct Hfail as [(i & Hi & Hf)|Hbound]; [|lia].
      pose proof (Hgr i Hi) as Hg. simpl in *. congruence.
Qed.

Lemma launch_follows_allocator_witness :
  (relay_ruby_run (starved 1)).1 = Aborted /\
  (relay_ruby_run (starved 2)).1 = Done tt.
Proof.
  split.
  - apply (launch_follows_allocator (starved 1)); [apply sane_fresh|].
    split; [reflexivity|]. left. exists 0%nat. split; [simpl; lia | reflexivity].
  - apply (launch_follows_allocator (starved 2)); [apply sane_fresh|].
    split_and!; [reflexivity | | reflexivity].
    intros i Hi. simpl in Hi. assert (i = 0%nat) as -> by lia. reflexivity.
Defined.

Lemma no_parse_among_frees (l : list N) : omap parsed (Cfree <$> l) = [].
Proof. induction l as [|q l IH]; [done|]. simpl. exact IH. Qed.

Lemma no_failure_among_frees (l : list N) :
  Forall (fun c => is_failure c = false) (Cfree <$> l).
Proof. induction l as [|q l IH]; by constructor. Qed.

(** A launch cycle that completes, from a sane state with [r] requests
    made so far, reports nothing, whichever copies of the arguments
    failed: its log holds no diagnostic, no exit and no failed
    assertion, and the option parser is called once, with the count of
    the call site's arguments and, at position i, the i-th argument
    where request [r + 2 + 2 i] (its [strdup]) was granted and a null
    pointer where it failed. *)
Theorem failed_copies_reach_parser_as_null w r w2 :
  sane w ->
  launch_cycle w = (Done r, w2) ->
  exists l,
    log w2 = log w ++ l /\
    omap parsed l =
      [(Z.of_nat (length (source (site w))),
        copies w (requests w + 2) (source (site w)))] /\
    Forall (fun c => is_failure c = false) l.
Proof.
  intros Hsane Hrun.
  destruct (relay_ruby_run_outcome w Hsane) as (o & w1 & E1 & H1).
  unfold launch_cycle, mbind in Hrun. rewrite E1 in Hrun.
  destruct o as [[]|st| |]; try done.
  destruct H1 as (p & a & qs & l1 & Hsane1 & Hth & Hbuf & Hwo & _ & _ & Hdel
                  & _ & Hlog1 & (S1 & S2 & S3 & S4 & S5 & S6)).
  rewrite Hth in Hrun.
  assert (heap w1 !! NULL = None) as Hnull.
  { destruct Hsane1 as [_ H]. apply H. by left. }
  destruct (ruby_run_handshake_spec w1 p a qs (source (site w)) (heap w))
    as (w2' & E2 & _ & Hlog2 & _ & _); try done.
  rewrite E2 in Hrun. simplify_eq.
  eexists. rewrite Hlog2, Hlog1, <- !app_assoc. split; [reflexivity|].
  split.
  - rewrite !omap_app, S4, no_parse_among_frees. simpl. by rewrite Hdel.
  - rewrite !Forall_app. split_and!; try done; try by repeat constructor.
    apply no_failure_among_frees.
Qed.

Lemma failed_copies_reach_parser_as_null_witness :
  exists l,
    log (launch_cycle (starved 2)).2 = log (starved 2) ++ l /\
    omap parsed l = [(1, [None])] /\
    Forall (fun c => is_failure c = false) l.
Proof.
  assert (launch_cycle (starved 2) = (Done NULL, (launch_cycle (starved 2)).2))
    as E by (vm_compute; reflexivity).
  exact (failed_copies_reach_parser_as_null (starved 2) NULL _
           (sane_fresh _ _ _ _ _ _ _) E).
Defined.


(** *** Where the thread is started *)

Lemma starts_no_thread_ret {A} (a : A) : starts_no_thread (mret a).
Proof. intros w. split; [done|]. exists []. by rewrite app_nil_r. Qed.

Lemma starts_no_thread_bind {A B} (m : M A) (k : A -> M B) :
  starts_no_thread m -> (forall a, starts_no_thread (k a)) ->
  starts_no_thread (mbind m k).
Proof.
  intros Hm Hk w. unfold mbind.
  destruct (Hm w) as (T1 & l1 & E1 & F1).
  destruct (m w) as [[a|st| |] w1]; simpl in *; try by eauto.
  destruct (Hk a w1) as (T2 & l2 & E2 & F2).
  split; [congruence|].
  exists (l1 ++ l2). rewrite E2, E1, app_assoc. split; [done|].
  by rewrite omap_app, F1, F2.
Qed.

Lemma starts_no_thread_emit c : spawned c = None -> starts_no_thread (emit c).
Proof. intros H w. split; [done|]. exists [c]. simpl. by rewrite H. Qed.

Ltac quiet_step :=
  split; [done|];
  first
    [ exists []; split; [by rewrite app_nil_r | done]
    | eexists [_]; split; [reflexivity | done] ].

Ltac quiet_prim :=
  intros w; cbv beta delta [mbind mret emit]; simpl;
  repeat case_match; simplify_eq; simpl; quiet_step.

Lemma starts_no_thread_request : starts_no_thread request.
Proof. unfold request. quiet_prim. Qed.

Lemma starts_no_thread_malloc b : starts_no_thread (malloc b).
Proof.
  unfold malloc. apply starts_no_thread_bind; [apply starts_no_thread_request|].
  intros [q|]; quiet_prim.
Qed.

Lemma starts_no_thread_strdup s : starts_no_thread (strdup s).
Proof.
  unfold strdup. apply starts_no_thread_bind; [apply starts_no_thread_request|].
  intros [q|]; quiet_prim.
Qed.

Lemma starts_no_thread_realloc_args a n : starts_no_thread (realloc_args a n).
Proof. unfold realloc_args, request. quiet_prim. Qed.

Lemma starts_no_thread_free q : starts_no_thread (free q).
Proof. unfold free. quiet_prim. Qed.

Lemma starts_no_thread_assert b : starts_no_thread (assert b).
Proof. unfold assert. destruct b; quiet_prim. Qed.

Lemma starts_no_thread_exit {A} st : starts_no_thread (@exit A st).
Proof. unfold exit. quiet_prim. Qed.

Lemma starts_no_thread_getenv name : starts_no_thread (getenv name).
Proof. unfold getenv. quiet_prim. Qed.

Lemma starts_no_thread_load_mArgs p : starts_no_thread (load_mArgs p).
Proof. unfold load_mArgs. quiet_prim. Qed.

Lemma starts_no_thread_load_mCount p : starts_no_thread (load_mCount p).
Proof. unfold load_mCount. quiet_prim. Qed.

Lemma starts_no_thread_store_mArgs p a : starts_no_thread (store_mArgs p a).
Proof. unfold store_mArgs. quiet_prim. Qed.

Lemma starts_no_thread_store_mCount p c : starts_no_thread (store_mCount p c).
Proof. unfold store_mCount. quiet_prim. Qed.

Lemma starts_no_thread_load_slot a i : starts_no_thread (load_slot a i).
Proof. unfold load_slot. quiet_prim. Qed.

Lemma starts_no_thread_store_slot a i q : starts_no_thread (store_slot a i q).
Proof. unfold store_slot. quiet_prim. Qed.

Lemma starts_no_thread_vpi_handle : starts_no_thread vpi_handle_SysTfCall.
Proof. unfold vpi_handle_SysTfCall. quiet_prim. Qed.

Lemma starts_no_thread_vpi_iterate : starts_no_thread vpi_iterate_Argument.
Proof. unfold vpi_iterate_Argument. quiet_prim. Qed.

Lemma starts_no_thread_vpi_get_value v : starts_no_thread (vpi_get_value v).
Proof. unfold vpi_get_value. quiet_prim. Qed.

Lemma starts_no_thread_ruby_options argc argv :
  starts_no_thread (ruby_options argc argv).
Proof. unfold ruby_options. quiet_prim. Qed.

Create HintDb quiet.
#[local] Hint Resolve starts_no_thread_ret starts_no_thread_request
  starts_no_thread_malloc starts_no_thread_strdup starts_no_thread_realloc_args
  starts_no_thread_free starts_no_thread_assert starts_no_thread_exit
  starts_no_thread_getenv starts_no_thread_load_mArgs
  starts_no_thread_load_mCount starts_no_thread_store_mArgs
  starts_no_thread_store_mCount starts_no_thread_load_slot
  starts_no_thread_store_slot starts_no_thread_vpi_handle
  starts_no_thread_vpi_iterate starts_no_thread_vpi_get_value
  starts_no_thread_ruby_options : quiet.

Ltac quiet_seq :=
  repeat first
    [ solve [auto with quiet]
    | apply starts_no_thread_emit; reflexivity
    | apply starts_no_thread_bind; [|intros ?]
    | case_decide
    | case_match ].

Lemma starts_no_thread_free_each argv n :
  forall i, starts_no_thread (free_each argv i n).
Proof.
  induction n as [|n IH]; intros i; simpl; [apply starts_no_thread_ret|].
  apply starts_no_thread_bind; [auto with quiet|]. intros q.
  apply starts_no_thread_bind; [auto with quiet|]. intros _. apply IH.
Qed.

Lemma starts_no_thread_capture_one p v : starts_no_thread (capture_one p v).
Proof. unfold capture_one, malloc_args. quiet_seq. Qed.

Lemma starts_no_thread_capture p it : starts_no_thread (capture p it).
Proof.
  induction it as [|v it IH]; simpl; [by apply starts_no_thread_emit|].
  apply starts_no_thread_bind; [by apply starts_no_thread_emit|]. intros _.
  apply starts_no_thread_bind; [apply starts_no_thread_capture_one|].
  intros _. apply IH.
Qed.

Lemma no_thread_unless_done_bind {A B} (m : M A) (k : A -> M B) :
  starts_no_thread m -> (forall a, no_thread_unless_done (k a)) ->
  no_thread_unless_done (mbind m k).
Proof.
  intros Hm Hk w. unfold mbind.
  destruct (Hm w) as (T1 & l1 & E1 & F1).
  destruct (m w) as [[a|st| |] w1]; simpl in *; try by eauto.
  intros Hnd. destruct (Hk a w1 Hnd) as (T2 & l2 & E2 & F2).
  split; [congruence|].
  exists (l1 ++ l2). rewrite E2, E1, app_assoc. split; [done|].
  by rewrite omap_app, F1, F2.
Qed.

Lemma no_thread_unless_done_quiet {A} (m : M A) :
  starts_no_thread m -> no_thread_unless_done m.
Proof. intros Hm w _. apply Hm. Qed.

Lemma no_thread_unless_done_relay_ruby_run :
  no_thread_unless_done relay_ruby_run.
Proof.
  pose proof starts_no_thread_capture as Hc.
  unfold relay_ruby_run, malloc_options. unfold_api.
  apply no_thread_unless_done_bind; [auto with quiet|]. intros p.
  case_decide.
  - do 3 (apply no_thread_unless_done_bind; [auto with quiet|]; intros ?).
    apply no_thread_unless_done_bind; [quiet_seq|]. intros [].
    intros w Hnd. by destruct (Hnd tt).
  - apply no_thread_unless_done_quiet. quiet_seq.
Qed.

(** From any state, [relay_ruby_run] that does not return (it exits
    when the options structure cannot be allocated, it aborts when the
    argument array cannot) has started no thread: [relay__rubyThread] is
    as it was and no [pthread_create] was logged.  The thread is started
    last, once the whole buffer is built. *)
Theorem no_thread_without_buffer w :
  (relay_ruby_run w).1 <> Done tt ->
  relay__rubyThread (relay_ruby_run w).2 = relay__rubyThread w /\
  exists l, log (relay_ruby_run w).2 = log w ++ l /\ omap spawned l = [].
Proof.
  intros Hnd. apply no_thread_unless_done_relay_ruby_run.
  by intros [].
Qed.

Lemma no_thread_without_buffer_witness :
  (relay_ruby_run (starved 1)).1 = Aborted /\
  relay__rubyThread (relay_ruby_run (starved 1)).2 = None.
Proof.
  split; [vm_compute; reflexivity|].
  apply (no_thread_without_buffer (starved 1)).
  vm_compute. discriminate.
Defined.

(** Neither the handshake nor [main_init] starts a thread, whatever the
    state they run in and however they end: of the functions of relay.c
    and main.c only [relay_ruby_run] calls [pthread_create]. *)
Theorem only_relay_ruby_run_starts_thread :
  (forall p, starts_no_thread (ruby_run_handshake p)) /\
  starts_no_thread main_init.
Proof.
  split.
  - intros p. unfold ruby_run_handshake. unfold_api.
    pose proof starts_no_thread_free_each as Hf. quiet_seq.
  - unfold main_init. unfold_api. quiet_seq.
Qed.

End RelayFacts.
